(** * The shaker plugin of linaria: a shallow embedding

    The development follows [shakerPlugin] and [rearrangeExports] of the
    shaker package.  The plugin works on a Babel tree through Babel's
    [NodePath] API and through helpers of [@linaria/utils]; neither is
    part of the plugin's file, so both are taken as one interface
    ([Babel]) over an abstract tree state that is threaded explicitly
    through every call that mutates the tree.  A small executable model
    of that interface ([Model]) is used to run the plugin on concrete
    modules. *)

From Stdlib Require Import Ascii String List Bool Arith Lia.
From stdpp Require Import base decidable option list strings pretty.
Import ListNotations.

Local Open Scope string_scope.
Local Open Scope list_scope.
Local Open Scope nat_scope.
Set Warnings "-register-all".

(** ** JavaScript containers *)

(** A [Set<A>]: insertion ordered, without repetition.  [has], [add],
    [delete] and [size] are the methods the plugin calls. *)
Module JSSet.
Section JSSet.
Context {A : Type} `{EqDecision A}.

Definition has (s : list A) (x : A) : bool := bool_decide (x ∈ s).

Definition add (s : list A) (x : A) : list A :=
  if has s x then s else s ++ [x].

Definition delete (s : list A) (x : A) : list A :=
  filter (λ y, y ≠ x) s.

Definition size (s : list A) : nat := length s.

(** [new Set(iterable)] *)
Definition of_list (l : list A) : list A := fold_left add l [].

End JSSet.
End JSSet.

(** A plain object with string keys (and a [Map<string, V>]): the
    entries in insertion order, every key at most once. *)
Module JSObject.
Section JSObject.
Context {V : Type}.

(** [o[k]], [None] standing for [undefined] *)
Fixpoint get (o : list (string * V)) (k : string) : option V :=
  match o with
  | [] => None
  | (k', v) :: o' => if decide (k' = k) then Some v else get o' k
  end.

(** [o[k] = v]: an existing key keeps its place, a new one goes last *)
Fixpoint set (o : list (string * V)) (k : string) (v : V) : list (string * V) :=
  match o with
  | [] => [(k, v)]
  | (k', v') :: o' =>
      if decide (k' = k) then (k', v) :: o' else (k', v') :: set o' k v
  end.

Definition keys (o : list (string * V)) : list string := map fst o.
Definition values (o : list (string * V)) : list V := map snd o.

End JSObject.
End JSObject.

(** ** Trees, paths and the collector's records *)

(** [NodePath] objects are compared with [===]: a path is its identity. *)
Abbreviation NodePath := nat (only parsing).
Abbreviation Binding := nat (only parsing).

(** The nodes the plugin builds with [t.identifier], [t.variableDeclaration]
    and so on, and inspects with [isIdentifier], [isAssignmentExpression],
    [isVariableDeclarator]; any other node is [other] with its type. *)
Inductive Node : Type :=
| identifier (name : string)
| variableDeclarator (id : Node) (init : option Node)
| variableDeclaration (kind : string) (declarations : list Node)
| memberExpression (object property : Node)
| assignmentExpression (operator : string) (left right : Node)
| expressionStatement (expression : Node)
| other (type : string).

Module IImport.
Record t : Type := mk { imported : string; source : string; local : NodePath }.
End IImport.

Module IReexport.
Record t : Type :=
  mk { exported : string; imported : string; source : string; local : NodePath }.
End IReexport.

Definition Exports : Type := list (string * NodePath).

(** What [collectExportsAndImports] hands to the plugin. *)
Record Collected : Type := mkCollected {
  exports : Exports;
  exportRefs : list (string * list NodePath);
  imports : list IImport.t;
  reexports : list IReexport.t;
  isEsModule : bool;
}.

(** Modelled from the spec: an Action of [@linaria/utils] pairs a node
    with the minimal enclosing statement that must be removed with it;
    the plugin reads the second component ([action?.[1]]). *)
Definition Action : Type := NodePath * NodePath.

Definition FeatureFlags : Type := list (string * bool).

(** ** The interface the plugin consumes *)

Class Babel (T : Type) : Type := {
  (* queries, Babel *)
  body : T → list NodePath;
  node : T → NodePath → option Node;
  get : T → NodePath → string → NodePath;
  findParent : T → NodePath → (NodePath → bool) → option NodePath;
  isAncestor : T → NodePath → NodePath → bool;
  isBindingIdentifier : T → NodePath → bool;
  getBinding : T → NodePath → string → option Binding;
  referencePaths : T → Binding → list NodePath;
  hasName : T → string → bool;
  (* queries, @linaria/utils and ./utils *)
  collectExportsAndImports : T → Collected;
  findActionForNode : T → NodePath → option Action;
  isRemoved : T → NodePath → bool;
  isFeatureEnabled : FeatureFlags → string → string → bool;
  shouldKeepSideEffect : string → bool;
  (* mutations, Babel *)
  generateUid : T → string → string * T;
  unshiftContainer : T → Node → NodePath * T;
  pushContainer : T → Node → NodePath * T;
  replaceWith : T → NodePath → Node → NodePath * T;
  registerDeclaration : T → NodePath → T;
  registerConstantViolation : T → NodePath → T;
  remove : T → NodePath → T;
  (* mutations, @linaria/utils *)
  reference : T → NodePath → NodePath → bool → T;
  dereference : T → NodePath → T;
  applyAction : T → Action → T;
  removeWithRelated : T → list NodePath → T;
  removeDangerousCode : T → T;
}.

(** ** The plugin *)

Inductive UnknownExport : Type :=
| error | ignore | reexport_all | skip_shaking.

#[global] Instance UnknownExport_eq_dec : EqDecision UnknownExport.
Proof. solve_decision. Defined.

Module DeadImport.
Record t : Type := mk { what : string; from : string }.
End DeadImport.

(** [IShakerOptions]; an absent optional field is [None]. *)
Record IShakerOptions : Type := mkOptions {
  deadImports : option (list DeadImport.t);
  features : FeatureFlags;
  ifUnknownExport : option UnknownExport;
  keepSideEffects : option bool;
  onlyExports : list string;
}.

(** The fields the plugin publishes on [this]. *)
Record IState : Type := mkState {
  st_imports : list IImport.t;
  st_exports : Exports;
  st_reexports : list IReexport.t;
  st_deadExports : list string;
}.

(** Which [return] of [enter] was taken; [Shaken] is the end of the body. *)
Inductive Exit : Type := FastLane | InteropAbort | SkipShaking | Shaken.

Section Plugin.
Context {T : Type} `{Babel T}.

(** How a call of [enter] ends.  [Diverged] is the fixed-point loop
    running out of the passes it is given. *)
Inductive Outcome : Type :=
| Returned (exit : Exit) (t : T) (state : IState)
| Thrown (message : string)
| Diverged.

Definition isIdentifier (t : T) (p : NodePath) : bool :=
  match node t p with Some (identifier _) => true | _ => false end.

Definition isVariableDeclarator (t : T) (p : NodePath) : bool :=
  match node t p with Some (variableDeclarator _ _) => true | _ => false end.

Definition isAssignmentExpression (t : T) (p : NodePath) : bool :=
  match node t p with Some (assignmentExpression _ _ _) => true | _ => false end.

(** [(path.node as NodeWithName).name || ''] *)
Definition nodeName (t : T) (p : NodePath) : string :=
  match node t p with Some (identifier name) => name | _ => "" end.

Definition getBindingForExport (t : T) (exportPath : NodePath) : option Binding :=
  if isIdentifier t exportPath then
    getBinding t exportPath (nodeName t exportPath)
  else
    let assignment :=
      if isAssignmentExpression t exportPath then
        let left := get t exportPath "left" in
        if isIdentifier t left then getBinding t exportPath (nodeName t left)
        else None
      else None in
    match findParent t exportPath (isVariableDeclarator t) with
    | Some declarator =>
        let id := get t declarator "id" in
        if isIdentifier t id then getBinding t declarator (nodeName t id)
        else assignment
    | None => assignment
    end.

Definition withoutRemovedImports (t : T) (items : list IImport.t) : list IImport.t :=
  filter (λ i, isRemoved t (IImport.local i) = false) items.

Definition withoutRemovedReexports (t : T) (items : list IReexport.t) : list IReexport.t :=
  filter (λ i, isRemoved t (IReexport.local i) = false) items.

(** The body of [refs.forEach] in [rearrangeExports]. *)
Definition replaceRef (uid : string) (t : T) (ref : NodePath) : T :=
  let '(replaced, t) := replaceWith t ref (identifier uid) in
  if isBindingIdentifier t replaced then registerConstantViolation t replaced
  else reference t replaced replaced false.

(** The body of [exportRefs.forEach] in [rearrangeExports]. *)
Definition rearrangeExport (acc : Exports * T) (entry : string * list NodePath)
  : Exports * T :=
  let '(rearranged, t) := acc in
  let '(name, refs) := entry in
  if length refs <=? 1 then (rearranged, t)
  else
    let '(uid, t) := generateUid t name in
    let '(declaration, t) :=
      unshiftContainer t
        (variableDeclaration "var" [variableDeclarator (identifier uid) None]) in
    let t := registerDeclaration t declaration in
    let t := fold_left (replaceRef uid) refs t in
    let '(pushed, t) :=
      pushContainer t
        (expressionStatement
           (assignmentExpression "="
              (memberExpression (identifier "exports") (identifier name))
              (identifier uid))) in
    let local := get t pushed "expression.right" in
    let t := reference t local local false in
    (JSObject.set rearranged name local, t).

Definition rearrangeExports (t : T) (exportRefs : list (string * list NodePath))
  (exports : Exports) : Exports * T :=
  fold_left rearrangeExport exportRefs (exports, t).

(** [Object.values(collected.exports).forEach] of [enter]: Babel does not
    mark the id of an assignment as a reference, the plugin does. *)
Definition referenceAssignmentLeft (t : T) (local : NodePath) : T :=
  if isAssignmentExpression t local then
    let left := get t local "left" in
    if isIdentifier t left then reference t left left true else t
  else t.

Definition sideEffectImport (i : IImport.t) : bool :=
  bool_decide (IImport.imported i = "side-effect").

(** The first [Object.entries(exports).forEach] of the liveness part. *)
Definition aliveExport (onlyExportsSet importNames : list string) (t : T)
  (aliveExports : list NodePath) (entry : string * NodePath) : list NodePath :=
  let '(exported, local) := entry in
  if JSSet.has onlyExportsSet exported then JSSet.add aliveExports local
  else if bool_decide (nodeName t local ∈ importNames) then JSSet.add aliveExports local
  else if bool_decide (local ∈ aliveExports) then JSSet.add aliveExports local
  else aliveExports.

Definition aliveReexport (onlyExportsSet : list string)
  (aliveExports : list NodePath) (exp : IReexport.t) : list NodePath :=
  if JSSet.has onlyExportsSet (IReexport.exported exp)
  then JSSet.add aliveExports (IReexport.local exp)
  else aliveExports.

Definition aliveWildcard (aliveExports : list NodePath) (exp : IReexport.t)
  : list NodePath :=
  if bool_decide (IReexport.exported exp = "*")
  then JSSet.add aliveExports (IReexport.local exp)
  else aliveExports.

(** The [reexport-all] branch. *)
Definition keepAllReexports (exports : Exports) (collected : Collected)
  (aliveExports : list NodePath) : list NodePath :=
  let aliveExports :=
    match JSObject.get exports "*" with
    | Some star => JSSet.add aliveExports star
    | None => aliveExports
    end in
  fold_left aliveWildcard (reexports collected) aliveExports.

(** [deadImports.some(...)] and what it pushes for one import. *)
Definition deadImportTargets (dead : list DeadImport.t) (t : T) (i : IImport.t)
  : list NodePath :=
  if bool_decide (IImport.imported i = "side-effect") then []
  else if existsb (λ deadImport,
            bool_decide (IImport.imported i = DeadImport.what deadImport)
            && bool_decide (IImport.source i = DeadImport.from deadImport)) dead
  then match getBindingForExport t (IImport.local i) with
       | None => [IImport.local i]
       | Some binding => referencePaths t binding
       end
  else [].

(** The state of the fixed-point loop; [passes] counts the iterations of
    the [while] and is not a variable of the plugin. *)
Record Elimination : Type := mkElimination {
  tree : T;
  deleted : list NodePath;
  dereferenced : list NodePath;
  changed : bool;
  passes : nat;
}.

(** [ref !== parent && !parent?.isAncestor(ref)] *)
Definition isOuter (t : T) (parent : option NodePath) (ref : NodePath) : bool :=
  match parent with
  | Some parent => negb (bool_decide (ref = parent)) && negb (isAncestor t parent ref)
  | None => true
  end.

Definition outerReferences (t : T) (binding : option Binding)
  (parent : option NodePath) : list NodePath :=
  filter (λ ref, isOuter t parent ref = true)
    (match binding with Some b => referencePaths t b | None => [] end).

(** The body of [for (const path of forDeleting)]. *)
Definition visit (e : Elimination) (path : NodePath) : Elimination :=
  let t := tree e in
  let binding := getBindingForExport t path in
  let action := findActionForNode t path in
  let parent := snd <$> action in
  let outer := outerReferences t binding parent in
  let severed := (0 <? length outer) && isIdentifier t path in
  let t := if severed then dereference t path else t in
  let dereferenced :=
    if severed then dereferenced e ++ [path] else dereferenced e in
  if negb (JSSet.has (deleted e) path)
     && (negb (bool_decide (is_Some binding)) || (length outer =? 0))
  then
    let t := match action with
             | Some action => applyAction t action
             | None => removeWithRelated t [path]
             end in
    mkElimination t (JSSet.add (deleted e) path) dereferenced true (passes e)
  else
    mkElimination t (deleted e) dereferenced (changed e) (passes e).

(** One iteration of the [while]. *)
Definition pass (forDeleting : list NodePath) (e : Elimination) : Elimination :=
  let e := mkElimination (tree e) (deleted e) (dereferenced e) false (S (passes e)) in
  fold_left visit forDeleting e.

(** [while (changed && deleted.size < forDeleting.length)], given at most
    [fuel] iterations; [None] when they do not suffice. *)
Fixpoint eliminate (fuel : nat) (forDeleting : list NodePath) (e : Elimination)
  : option Elimination :=
  if changed e && (JSSet.size (deleted e) <? length forDeleting) then
    match fuel with
    | O => None
    | S fuel => eliminate fuel forDeleting (pass forDeleting e)
    end
  else Some e.

(** The loop's variables before the first iteration. *)
Definition start (t : T) : Elimination :=
  mkElimination t [] [] true 0.

(** [dereferenced.forEach]: a path that is still alive is referenced back. *)
Definition restore (t : T) (path : NodePath) : T :=
  if isRemoved t path then t else reference t path path false.

(** The reporter's [Object.entries(exports).forEach]. *)
Definition report (t : T) (acc : Exports * list string) (entry : string * NodePath)
  : Exports * list string :=
  let '(exported, local) := entry in
  if isRemoved t local then (fst acc, snd acc ++ [exported])
  else (JSObject.set (fst acc) exported local, snd acc).

Definition publish (t : T) (collected : Collected) (exports : Exports) : IState :=
  let '(alive, dead) := fold_left (report t) exports ([], []) in
  mkState (withoutRemovedImports t (imports collected)) alive
          (withoutRemovedReexports t (reexports collected)) dead.

(** The module and the export map as [enter] has them when the liveness
    part starts: after [rearrangeExports] and after the ids of exported
    assignments were referenced. *)
Definition normalize (t : T) : Exports * T :=
  let collected := collectExportsAndImports t in
  let '(rearranged, t) :=
    rearrangeExports t (exportRefs collected) (exports collected) in
  (rearranged,
   fold_left referenceAssignmentLeft (JSObject.values (exports collected)) t).

(** The published state of the two abort paths: everything is alive. *)
Definition allAlive (collected : Collected) (rearranged : Exports) : IState :=
  mkState (imports collected) rearranged (reexports collected) [].

(** The feature- and file-gated call of [removeDangerousCode]. *)
Definition strip (options : IShakerOptions) (filename : string) (t : T) : T :=
  if isFeatureEnabled (features options) "dangerousCodeRemover" filename
  then removeDangerousCode t else t.

(** [forDeleting] as the loop receives it. *)
Definition worklist (options : IShakerOptions) (collected : Collected)
  (rearranged : Exports) (importedAsSideEffect : bool)
  (aliveExports : list NodePath) (t : T) : list NodePath :=
  let deadImports := default [] (deadImports options) in
  let keepSideEffects := default false (keepSideEffects options) in
  let sideEffectImports := filter (λ i, sideEffectImport i = true) (imports collected) in
  let forDeleting :=
    filter (λ exp, exp ∉ aliveExports)
      (JSObject.values rearranged ++ map IReexport.local (reexports collected)) in
  let forDeleting :=
    if negb keepSideEffects && negb importedAsSideEffect then
      forDeleting ++
      map IImport.local
        (filter (λ i, shouldKeepSideEffect (IImport.source i) = false) sideEffectImports)
    else forDeleting in
  if 0 <? length deadImports then
    forDeleting ++ flat_map (deadImportTargets deadImports t) (imports collected)
  else forDeleting.

(** After the loop: the severed edges are restored and the result is
    published. *)
Definition finish (collected : Collected) (rearranged : Exports)
  (e : Elimination) : Outcome :=
  let t := fold_left restore (dereferenced e) (tree e) in
  Returned Shaken t (publish t collected rearranged).

(** From the dangerous-code remover to the end of [enter]. *)
Definition sweep (options : IShakerOptions) (filename : string)
  (collected : Collected) (rearranged : Exports) (importedAsSideEffect : bool)
  (aliveExports : list NodePath) (t : T) : Outcome :=
  let t := strip options filename t in
  let forDeleting :=
    worklist options collected rearranged importedAsSideEffect aliveExports t in
  match eliminate (length forDeleting) forDeleting (start t) with
  | None => Diverged
  | Some e => finish collected rearranged e
  end.

(** The liveness part for a request without the wildcard. *)
Definition shake (options : IShakerOptions) (filename : string)
  (collected : Collected) (rearranged : Exports) (onlyExportsSet : list string)
  (importedAsSideEffect : bool) (t : T) : Outcome :=
  let ifUnknownExport := default skip_shaking (ifUnknownExport options) in
  let importNames := map IImport.imported (imports collected) in
  let aliveExports :=
    fold_left (aliveExport onlyExportsSet importNames t) rearranged [] in
  let aliveExports :=
    fold_left (aliveReexport onlyExportsSet) (reexports collected) aliveExports in
  let isAllExportsFound :=
    JSSet.size aliveExports =? JSSet.size onlyExportsSet in
  if negb isAllExportsFound && negb (bool_decide (ifUnknownExport = ignore)) then
    match ifUnknownExport with
    | error =>
        Thrown ("Unknown export(s) requested: " +:+ String.concat "," (onlyExports options))
    | reexport_all =>
        sweep options filename collected rearranged importedAsSideEffect
          (keepAllReexports rearranged collected aliveExports) t
    | skip_shaking => Returned SkipShaking t (allAlive collected rearranged)
    | ignore =>
        sweep options filename collected rearranged importedAsSideEffect aliveExports t
    end
  else
    sweep options filename collected rearranged importedAsSideEffect aliveExports t.

(** The request as the liveness part sees it: [__linariaPreval] is
    dropped when the module does not export it. *)
Definition requested (options : IShakerOptions) (rearranged : Exports) : list string :=
  let onlyExportsSet := JSSet.of_list (onlyExports options) in
  let hasLinariaPreval := bool_decide (is_Some (JSObject.get rearranged "__linariaPreval")) in
  if JSSet.has onlyExportsSet "__linariaPreval" && negb hasLinariaPreval
  then JSSet.delete onlyExportsSet "__linariaPreval"
  else onlyExportsSet.

(** [onlyExportsSet] once the [side-effect] marker is taken out of it. *)
Definition effective (options : IShakerOptions) (rearranged : Exports) : list string :=
  JSSet.delete (requested options rearranged) "side-effect".

(** [aliveExports] as it is compared with the request. *)
Definition alive (collected : Collected) (rearranged : Exports)
  (onlyExportsSet : list string) (t : T) : list NodePath :=
  fold_left (aliveReexport onlyExportsSet) (reexports collected)
    (fold_left
       (aliveExport onlyExportsSet (map IImport.imported (imports collected)) t)
       rearranged []).

(** [Program.enter].  The metadata that [preeval] returns is stored on
    the file and read by nothing here; [log] has no effect on the tree. *)
Definition enter (options : IShakerOptions) (filename : string) (t : T) : Outcome :=
  let collected := collectExportsAndImports t in
  let '(rearranged, t) := normalize t in
  let hasDefault := bool_decide (is_Some (JSObject.get rearranged "default")) in
  let onlyExportsSet := requested options rearranged in
  if JSSet.size onlyExportsSet =? 0 then
    Returned FastLane (fold_left remove (body t) t)
      (mkState [] [] [] (JSObject.keys rearranged))
  else
    let importedAsSideEffect := JSSet.has onlyExportsSet "side-effect" in
    let onlyExportsSet := JSSet.delete onlyExportsSet "side-effect" in
    if JSSet.has onlyExportsSet "default" && hasDefault && negb (isEsModule collected)
    then Returned InteropAbort t (allAlive collected rearranged)
    else if negb (JSSet.has onlyExportsSet "*") then
      shake options filename collected rearranged onlyExportsSet importedAsSideEffect t
    else Returned Shaken t (publish t collected rearranged).

End Plugin.

Arguments Outcome T : clear implicits.
Arguments Elimination T : clear implicits.


(** ** The summary of [post] *)

(** What [post] stores in [file.metadata.linariaEvaluator]. *)
Record LinariaEvaluator : Type := mkEvaluator {
  ev_deadExports : list string;
  ev_exports : list string;
  ev_imports : list (string * list string);
}.

(** [if (!imports.has(source)) imports.set(source, [])] *)
Definition ensureSource (imports : list (string * list string)) (source : string)
  : list (string * list string) :=
  if bool_decide (is_Some (JSObject.get imports source)) then imports
  else JSObject.set imports source [].

(** [imports.get(source)!.push(imported)]: the array of the entry grows
    in place.  The entry is there whenever [post] gets here. *)
Definition pushImported (imports : list (string * list string))
  (source imported : string) : list (string * list string) :=
  match JSObject.get imports source with
  | Some names => JSObject.set imports source (names ++ [imported])
  | None => imports
  end.

(** The body of [this.imports.forEach]: [if (imported)] lets every string
    but the empty one through. *)
Definition summarizeImport (imports : list (string * list string)) (i : IImport.t)
  : list (string * list string) :=
  let imports := ensureSource imports (IImport.source i) in
  if bool_decide (IImport.imported i ≠ "")
  then pushImported imports (IImport.source i) (IImport.imported i)
  else imports.

(** The body of [this.reexports.forEach]. *)
Definition summarizeReexport (imports : list (string * list string))
  (exp : IReexport.t) : list (string * list string) :=
  pushImported (ensureSource imports (IReexport.source exp))
    (IReexport.source exp) (IReexport.imported exp).

Definition post (state : IState) : LinariaEvaluator :=
  let imports := fold_left summarizeImport (st_imports state) [] in
  let imports := fold_left summarizeReexport (st_reexports state) imports in
  mkEvaluator (st_deadExports state) (JSObject.keys (st_exports state)) imports.

(** [{ ...options, onlyExports: request }] *)
Abbreviation asking options request :=
  (mkOptions (deadImports options) (features options) (ifUnknownExport options)
     (keepSideEffects options) request).

(** ** What the plugin relies on

    Babel and [@linaria/utils] are used through the interface only.  The
    theorems that speak about the shape of the tree or about reference
    edges need to know what the primitives do; [BabelLaws] states it, in
    the terms in which the spec describes the Reference Graph Accessor:
    insertion at the top and at the bottom of the module, replacement of
    one node, collision-free identifiers, removal, and reference edges
    that form an ordered set per binding. *)

Section Laws.
Context {T : Type} `{Babel T}.

(** The path stands for a node of the tree. *)
Definition valid (t : T) (p : NodePath) : Prop := is_Some (node t p).

(** Every binding's reference sites are an ordered set. *)
Definition refs_ok (t : T) : Prop := ∀ b, NoDup (referencePaths t b).

(** [t'] shows what [t] showed, nodes of [touched] paths and of their
    ancestors apart. *)
Record frame (touched : list NodePath) (t t' : T) : Prop := mkFrame {
  frame_valid : ∀ q, valid t q → valid t' q;
  frame_node : ∀ q, valid t q → q ∉ touched →
    (∀ p, p ∈ touched → isAncestor t q p = false) → node t' q = node t q;
  frame_get : ∀ q k, valid t q → q ∉ touched → valid t (get t q k) →
    get t' q k = get t q k;
  frame_ancestor : ∀ q p, valid t p →
    isAncestor t q p = false → isAncestor t' q p = false;
  frame_removed : ∀ q, valid t q → isRemoved t' q = isRemoved t q;
  frame_names : ∀ n, hasName t n = true → hasName t' n = true;
}.

(** [t'] has the statements of [t], none of them removed, between
    whatever was put before and after them. *)
Definition keeps (t t' : T) : Prop :=
  (∀ q, valid t q → valid t' q)
  ∧ (∀ q, valid t q → isRemoved t' q = isRemoved t q)
  ∧ ∃ before after, body t' = before ++ body t ++ after.



(** The module is unsafe to shake: [default] is requested and exported,
    and the module is not known to be an ES module. *)
Definition hazard (options : IShakerOptions) (t : T) : Prop :=
  "default" ∈ effective options (normalize t).1
  ∧ is_Some (JSObject.get (normalize t).1 "default")
  ∧ isEsModule (collectExportsAndImports t) = false.

#[global] Instance hazard_dec options t : Decision (hazard options t).
Proof. unfold hazard. apply _. Defined.

(** What one visit, and so one pass, can do to the loop's variables. *)
Definition advances (candidates : list NodePath) (e e' : Elimination T) : Prop :=
  passes e' = passes e
  ∧ (NoDup (deleted e) → NoDup (deleted e'))
  ∧ length (deleted e) ≤ length (deleted e')
  ∧ (changed e' = true → changed e = true ∨ length (deleted e) < length (deleted e'))
  ∧ (∀ x, x ∈ deleted e' → x ∈ deleted e ∨ x ∈ candidates).

End Laws.

(** The nodes a requested name stands for: the export of that name and
    the re-exports under that name. *)
Definition matches (collected : Collected) (rearranged : Exports) (name : string)
  : list NodePath :=
  map snd (filter (λ entry, entry.1 = name) rearranged)
  ++ map IReexport.local
       (filter (λ exp, IReexport.exported exp = name) (reexports collected)).



Class BabelLaws (T : Type) `{Babel T} : Prop := {
  (* path.isAncestor *)
  isAncestor_valid : ∀ (t : T) a d, isAncestor t a d = true → valid t a;
  (* scope.generateUid *)
  generateUid_frame : ∀ (t : T) n, frame [] t (generateUid t n).2;
  generateUid_body : ∀ (t : T) n, body (generateUid t n).2 = body t;
  generateUid_fresh : ∀ (t : T) n, hasName t (generateUid t n).1 = false;
  generateUid_used : ∀ (t : T) n,
    hasName (generateUid t n).2 (generateUid t n).1 = true;
  (* root.unshiftContainer('body', [n]) *)
  unshiftContainer_frame : ∀ (t : T) n, frame [] t (unshiftContainer t n).2;
  unshiftContainer_body : ∀ (t : T) n,
    body (unshiftContainer t n).2 = (unshiftContainer t n).1 :: body t;
  unshiftContainer_node : ∀ (t : T) n,
    node (unshiftContainer t n).2 (unshiftContainer t n).1 = Some n;
  unshiftContainer_new : ∀ (t : T) n, ¬ valid t (unshiftContainer t n).1;
  (* root.pushContainer('body', [n]) *)
  pushContainer_frame : ∀ (t : T) n, frame [] t (pushContainer t n).2;
  pushContainer_body : ∀ (t : T) n,
    body (pushContainer t n).2 = body t ++ [(pushContainer t n).1];
  pushContainer_node : ∀ (t : T) n,
    node (pushContainer t n).2 (pushContainer t n).1 = Some n;
  pushContainer_new : ∀ (t : T) n, ¬ valid t (pushContainer t n).1;
  pushContainer_right : ∀ (t : T) op l r,
    let pushed := pushContainer t (expressionStatement (assignmentExpression op l r)) in
    node pushed.2 (get pushed.2 pushed.1 "expression.right") = Some r
    ∧ ¬ valid t (get pushed.2 pushed.1 "expression.right");
  (* path.replaceWith(n) *)
  replaceWith_frame : ∀ (t : T) p n, frame [p] t (replaceWith t p n).2;
  replaceWith_body : ∀ (t : T) p n, body (replaceWith t p n).2 = body t;
  replaceWith_path : ∀ (t : T) p n, (replaceWith t p n).1 = p;
  replaceWith_node : ∀ (t : T) p n, valid t p → node (replaceWith t p n).2 p = Some n;
  (* scope.registerDeclaration, scope.registerConstantViolation *)
  registerDeclaration_frame : ∀ (t : T) p, frame [] t (registerDeclaration t p);
  registerDeclaration_body : ∀ (t : T) p, body (registerDeclaration t p) = body t;
  registerConstantViolation_frame : ∀ (t : T) p,
    frame [] t (registerConstantViolation t p);
  registerConstantViolation_body : ∀ (t : T) p,
    body (registerConstantViolation t p) = body t;
  (* path.remove() *)
  remove_removed : ∀ (t : T) p, isRemoved (remove t p) p = true;
  remove_monotone : ∀ (t : T) p q,
    isRemoved t q = true → isRemoved (remove t p) q = true;
  remove_body : ∀ (t : T) p, body (remove t p) = filter (λ q, q ≠ p) (body t);
  (* reference, dereference and the deletion helpers *)
  reference_frame : ∀ (t : T) p r force, frame [] t (reference t p r force);
  reference_body : ∀ (t : T) p r force, body (reference t p r force) = body t;
  reference_binding : ∀ (t : T) p r force x name,
    getBinding (reference t p r force) x name = getBinding t x name;
  reference_adds : ∀ (t : T) p force b,
    isIdentifier t p = true → getBinding t p (nodeName t p) = Some b →
    p ∈ referencePaths (reference t p p force) b;
  reference_keeps : ∀ (t : T) p r force b q,
    q ∈ referencePaths t b → q ∈ referencePaths (reference t p r force) b;
  reference_ok : ∀ (t : T) p r force, refs_ok t → refs_ok (reference t p r force);
  dereference_ok : ∀ (t : T) p, refs_ok t → refs_ok (dereference t p);
  applyAction_ok : ∀ (t : T) a, refs_ok t → refs_ok (applyAction t a);
  removeWithRelated_ok : ∀ (t : T) ps, refs_ok t → refs_ok (removeWithRelated t ps);
}.

(** ** An executable model of the interface

    Modelled from the spec: the Reference Graph Accessor, the deletion
    primitives and the collector are not part of the plugin's file.  The
    model keeps what the spec's data model names: top-level statements in
    order, a node and a parent per path, a removed mark, the bindings of
    the root scope with their ordered sets of reference sites, and the
    names in use.  A path is an index into [paths]; a parent always has a
    smaller index than its children. *)
Module Model.

Record PathInfo : Type := mkPath {
  p_node : Node;
  p_parent : option (NodePath * string);
  p_removed : bool;
}.

Record Tree : Type := mkTree {
  paths : list PathInfo;
  top : list NodePath;
  scope : list (string * list NodePath);
  violations : list NodePath;
  names : list string;
  collected : Collected;
}.

Definition with_paths (t : Tree) (ps : list PathInfo) : Tree :=
  mkTree ps (top t) (scope t) (violations t) (names t) (collected t).
Definition with_top (t : Tree) (l : list NodePath) : Tree :=
  mkTree (paths t) l (scope t) (violations t) (names t) (collected t).
Definition with_scope (t : Tree) (sc : list (string * list NodePath)) : Tree :=
  mkTree (paths t) (top t) sc (violations t) (names t) (collected t).
Definition with_violations (t : Tree) (l : list NodePath) : Tree :=
  mkTree (paths t) (top t) (scope t) l (names t) (collected t).
Definition with_names (t : Tree) (l : list string) : Tree :=
  mkTree (paths t) (top t) (scope t) (violations t) l (collected t).

(** *** Queries *)

Definition nodeAt (ps : list PathInfo) (p : NodePath) : option Node :=
  p_node <$> ps !! p.

Definition parentOf (ps : list PathInfo) (p : NodePath) : option (NodePath * string) :=
  match ps !! p with
  | Some info =>
      match p_parent info with
      | Some (q, k) => if q <? p then Some (q, k) else None
      | None => None
      end
  | None => None
  end.

Fixpoint climb (ps : list PathInfo) (fuel : nat) (p : NodePath)
  (callback : NodePath → bool) : option NodePath :=
  match fuel with
  | O => None
  | S fuel =>
      match parentOf ps p with
      | Some (q, _) => if callback q then Some q else climb ps fuel q callback
      | None => None
      end
  end.

Definition ancestor (ps : list PathInfo) (a d : NodePath) : bool :=
  bool_decide (is_Some (climb ps (S d) d (λ q, bool_decide (q = a)))).

Fixpoint childFrom (ps : list PathInfo) (i : nat) (p : NodePath) (k : string)
  : option NodePath :=
  match ps with
  | [] => None
  | info :: ps =>
      if bool_decide (p_parent info = Some (p, k)) && (p <? i) then Some i
      else childFrom ps (S i) p k
  end.

Definition child (ps : list PathInfo) (p : NodePath) (k : string) : option NodePath :=
  childFrom ps 0 p k.

Fixpoint splitDots (s : string) : list string :=
  match s with
  | EmptyString => [""]
  | String c s' =>
      if Ascii.eqb c "."%char then "" :: splitDots s'
      else match splitDots s' with
           | h :: tl => String c h :: tl
           | [] => [String c ""]
           end
  end.

(** [path.get('a.b')]: one key at a time; an element of a list container
    has the key [container.index]. *)
Fixpoint resolve (ps : list PathInfo) (keys : list string) (p : NodePath)
  : option NodePath :=
  match keys with
  | [] => Some p
  | k :: rest =>
      match child ps p k with
      | Some c => resolve ps rest c
      | None =>
          match rest with
          | k2 :: rest' =>
              match child ps p (k +:+ "." +:+ k2) with
              | Some c => resolve ps rest' c
              | None => None
              end
          | [] => None
          end
      end
  end.

Definition bindingIndex (sc : list (string * list NodePath)) (name : string)
  : option Binding :=
  fst <$> list_find (λ entry, entry.1 = name) sc.

Definition refsOf (sc : list (string * list NodePath)) (b : Binding) : list NodePath :=
  match sc !! b with Some entry => entry.2 | None => [] end.

(** A path that stands for no node counts as removed. *)
Definition removedAt (ps : list PathInfo) (p : NodePath) : bool :=
  match ps !! p with Some info => p_removed info | None => true end.

Definition bindingIdentifier (ps : list PathInfo) (p : NodePath) : bool :=
  match nodeAt ps p, parentOf ps p with
  | Some (identifier _), Some (q, k) =>
      match nodeAt ps q with
      | Some (assignmentExpression _ _ _) => bool_decide (k = "left")
      | Some (variableDeclarator _ _) => bool_decide (k = "id")
      | _ => false
      end
  | _, _ => false
  end.

Definition used (t : Tree) : list string := names t ++ (scope t).*1.

(** The statement a path belongs to. *)
Definition statementOf (t : Tree) (p : NodePath) : option NodePath :=
  if bool_decide (p ∈ top t) then Some p
  else climb (paths t) (S p) p (λ q, bool_decide (q ∈ top t)).

(** *** Insertion and replacement *)

Definition listKey (container : string) (i : nat) : string :=
  container +:+ "." +:+ pretty i.

Fixpoint allocEach (alloc1 : Node → option (NodePath * string) → list PathInfo → list PathInfo)
  (self : NodePath) (container : string) (ds : list Node) (i : nat)
  (ps : list PathInfo) : list PathInfo :=
  match ds with
  | [] => ps
  | d :: ds =>
      allocEach alloc1 self container ds (S i)
        (alloc1 d (Some (self, listKey container i)) ps)
  end.

(** A path for the node and for every node below it. *)
Fixpoint alloc (n : Node) (parent : option (NodePath * string))
  (ps : list PathInfo) : list PathInfo :=
  let self := length ps in
  let ps := ps ++ [mkPath n parent false] in
  match n with
  | identifier _ | other _ => ps
  | variableDeclarator id init =>
      let ps := alloc id (Some (self, "id")) ps in
      match init with
      | Some i => alloc i (Some (self, "init")) ps
      | None => ps
      end
  | variableDeclaration _ ds => allocEach alloc self "declarations" ds 0 ps
  | memberExpression o p =>
      alloc p (Some (self, "property")) (alloc o (Some (self, "object")) ps)
  | assignmentExpression _ l r =>
      alloc r (Some (self, "right")) (alloc l (Some (self, "left")) ps)
  | expressionStatement e => alloc e (Some (self, "expression")) ps
  end.

(** The node with its child under [key] replaced. *)
Definition setChild (n : Node) (key : string) (c : Node) : Node :=
  match n with
  | variableDeclarator id init =>
      if String.eqb key "id" then variableDeclarator c init
      else if String.eqb key "init" then variableDeclarator id (Some c)
      else n
  | variableDeclaration kind ds =>
      variableDeclaration kind
        (imap (λ i d, if String.eqb key (listKey "declarations" i) then c else d) ds)
  | memberExpression o p =>
      if String.eqb key "object" then memberExpression c p
      else if String.eqb key "property" then memberExpression o c
      else n
  | assignmentExpression op l r =>
      if String.eqb key "left" then assignmentExpression op c r
      else if String.eqb key "right" then assignmentExpression op l c
      else n
  | expressionStatement e =>
      if String.eqb key "expression" then expressionStatement c else n
  | identifier _ | other _ => n
  end.

Definition setNode (ps : list PathInfo) (p : NodePath) (n : Node) : list PathInfo :=
  match ps !! p with
  | Some info => <[p := mkPath n (p_parent info) (p_removed info)]> ps
  | None => ps
  end.

(** The node of [p] has become [n]: the nodes of its ancestors follow. *)
Fixpoint propagate (ps : list PathInfo) (fuel : nat) (p : NodePath) (n : Node)
  : list PathInfo :=
  match fuel with
  | O => ps
  | S fuel =>
      match parentOf ps p with
      | Some (q, k) =>
          match nodeAt ps q with
          | Some m => propagate (setNode ps q (setChild m k n)) fuel q (setChild m k n)
          | None => ps
          end
      | None => ps
      end
  end.

(** *** Identifiers *)

Fixpoint dropUnderscores (s : string) : string :=
  match s with
  | String c s' => if Ascii.eqb c "_"%char then dropUnderscores s' else s
  | EmptyString => s
  end.

Fixpoint dropDigits (s : string) : string :=
  match s with
  | String c s' => if is_Some_dec (strings.Ascii.is_nat c) then dropDigits s' else s
  | EmptyString => s
  end.

(** [name.replace(/^_+/, '').replace(/[0-9]+$/g, '')] *)
Definition uidBase (name : string) : string :=
  String.rev (dropDigits (String.rev (dropUnderscores name))).

(** [_name], [_name2], [_name3], ... *)
Definition candidate (base : string) (i : nat) : string :=
  "_" +:+ base +:+ (if i <=? 1 then "" else pretty i).

Fixpoint firstFree (taken : list string) (base : string) (i fuel : nat) : string :=
  if bool_decide (candidate base i ∈ taken) then
    match fuel with
    | O => candidate base i
    | S fuel => firstFree taken base (S i) fuel
    end
  else candidate base i.

(** *** Removal *)

Definition mark (p : NodePath) (ps : list PathInfo) : list PathInfo :=
  imap (λ i info,
          if bool_decide (i = p) || ancestor ps p i
          then mkPath (p_node info) (p_parent info) true else info) ps.

Definition detach (t : Tree) (p : NodePath) : Tree :=
  with_top (with_paths t (mark p (paths t))) (filter (λ q, q ≠ p) (top t)).

(** Reference sites that were removed are dropped from every binding. *)
Definition clean (t : Tree) : Tree :=
  with_scope t
    (map (λ entry, (entry.1, filter (λ r, removedAt (paths t) r = false) entry.2))
       (scope t)).

Definition isJSX (t : Tree) (p : NodePath) : bool :=
  match nodeAt (paths t) p with
  | Some (expressionStatement (other "JSXElement")) => true
  | _ => false
  end.

Definition declaredNames (n : Node) : list string :=
  match n with
  | variableDeclaration _ ds =>
      flat_map (λ d, match d with
                     | variableDeclarator (identifier name) _ => [name]
                     | _ => []
                     end) ds
  | _ => []
  end.

Definition declare (sc : list (string * list NodePath)) (name : string)
  : list (string * list NodePath) :=
  if bool_decide (name ∈ sc.*1) then sc else sc ++ [(name, [])].

Definition editRefs (t : Tree) (p : NodePath) (f : list NodePath → list NodePath) : Tree :=
  match nodeAt (paths t) p with
  | Some (identifier name) =>
      match bindingIndex (scope t) name with
      | Some b => with_scope t (<[b := (name, f (refsOf (scope t) b))]> (scope t))
      | None => t
      end
  | _ => t
  end.

Fixpoint endsWith (suffix s : string) : bool :=
  String.eqb suffix s
  || match s with
     | String _ s' => endsWith suffix s'
     | EmptyString => false
     end.

#[global] Instance model : Babel Tree := {|
  body := top;
  node t := nodeAt (paths t);
  get t p key := default (length (paths t)) (resolve (paths t) (splitDots key) p);
  findParent t p callback := climb (paths t) (S p) p callback;
  isAncestor t := ancestor (paths t);
  isBindingIdentifier t := bindingIdentifier (paths t);
  getBinding t _ name := bindingIndex (scope t) name;
  referencePaths t := refsOf (scope t);
  hasName t name := bool_decide (name ∈ used t);
  collectExportsAndImports := collected;
  findActionForNode t p :=
    if removedAt (paths t) p then None else (λ s, (p, s)) <$> statementOf t p;
  isRemoved t := removedAt (paths t);
  isFeatureEnabled flags name _ := default false (JSObject.get flags name);
  shouldKeepSideEffect source := negb (endsWith ".css" source);
  generateUid t name :=
    let uid := firstFree (used t) (uidBase name) 1 (length (used t)) in
    (uid, with_names t (names t ++ [uid]));
  unshiftContainer t n :=
    let p := length (paths t) in
    (p, with_top (with_paths t (alloc n None (paths t))) (p :: top t));
  pushContainer t n :=
    let p := length (paths t) in
    (p, with_top (with_paths t (alloc n None (paths t))) (top t ++ [p]));
  replaceWith t p n :=
    (p, with_paths t (propagate (setNode (paths t) p n) (S p) p n));
  registerDeclaration t p :=
    match nodeAt (paths t) p with
    | Some n => with_scope t (fold_left declare (declaredNames n) (scope t))
    | None => t
    end;
  registerConstantViolation t p := with_violations t (violations t ++ [p]);
  remove := detach;
  reference t p r _ :=
    editRefs t p (λ refs, if bool_decide (r ∈ refs) then refs else refs ++ [r]);
  dereference t p := editRefs t p (filter (λ r, r ≠ p));
  applyAction t action := clean (detach t action.2);
  removeWithRelated t ps := clean (fold_left detach ps t);
  removeDangerousCode t :=
    clean (fold_left detach (filter (λ p, isJSX t p = true) (top t)) t);
|}.

(** A module as parsed: its statements, its bindings with their
    reference sites, and what the collector found in it. *)
Definition parse (statements : list Node)
  (bindings : list (string * list NodePath)) (found : Collected) : Tree :=
  let '(ps, tops) :=
    fold_left (λ acc n, (alloc n None acc.1, acc.2 ++ [length acc.1]))
      statements ([], []) in
  mkTree ps tops bindings [] [] found.

(** *** How the store of paths grows

    What the proofs of the interface's laws say of two stores. *)

(** The parent links and the removal marks of a store. *)
Definition links (ps : list PathInfo) : list (option (NodePath * string) * bool) :=
  (λ info, (p_parent info, p_removed info)) <$> ps.

(** The parent of a path below a new node is new as well. *)
Definition inner (m : nat) (info : PathInfo) : Prop :=
  ∃ q k, p_parent info = Some (q, k) ∧ m ≤ q.

(** [ps'] is [ps] and, after [block], paths below new nodes. *)
Definition grown (m : nat) (ps block ps' : list PathInfo) : Prop :=
  ∃ rest, ps' = ps ++ block ++ rest ∧ Forall (inner m) rest.

(** A new block holds no child of an old path. *)
Definition outer (m : nat) (info : PathInfo) : Prop :=
  match p_parent info with Some (q, _) => m ≤ q | None => True end.

End Model.

(** ** Sample modules *)

Module Samples.
Import Model.

Definition exportsMember (name : string) : Node :=
  memberExpression (identifier "exports") (identifier name).

Definition options (request : list string) (policy : option UnknownExport)
  : IShakerOptions :=
  mkOptions None [] policy None request.

(** [exports.default = compute(); exports.default;], no [__esModule]:
    the export is read back once, so it has two reference sites. *)
Definition plainDefault : Tree :=
  parse
    [ expressionStatement
        (assignmentExpression "=" (exportsMember "default") (other "CallExpression"));
      expressionStatement (exportsMember "default") ]
    []
    (mkCollected [("default", 5)] [("default", [2; 7])] [] [] false).

(** [export const a = 1; export const b = 2;] *)
Definition twoExports : Tree :=
  parse
    [ variableDeclaration "const"
        [variableDeclarator (identifier "a") (Some (other "NumericLiteral"))];
      variableDeclaration "const"
        [variableDeclarator (identifier "b") (Some (other "NumericLiteral"))] ]
    [("a", []); ("b", [])]
    (mkCollected [("a", 3); ("b", 7)] [] [] [] true).

(** [export const { x, y } = compute();]: both names stand for the
    initializer. *)
Definition destructured : Tree :=
  parse
    [ variableDeclaration "const"
        [variableDeclarator (other "ObjectPattern") (Some (other "CallExpression"))] ]
    []
    (mkCollected [("x", 3); ("y", 3)] [] [] [] true).

(** [import './polyfill'; import { helper } from './util';
    export * from './more'; export const a = helper();] *)
Definition withImports : Tree :=
  parse
    [ other "ImportDeclaration";
      other "ImportDeclaration";
      other "ExportAllDeclaration";
      variableDeclaration "const"
        [variableDeclarator (identifier "a") (Some (other "CallExpression"))] ]
    [("a", []); ("helper", [])]
    (mkCollected [("a", 6)] []
       [IImport.mk "side-effect" "./polyfill" 0; IImport.mk "helper" "./util" 1]
       [IReexport.mk "*" "*" "./more" 2] true).

(** [export const __linariaPreval = {};] *)
Definition prevalOnly : Tree :=
  parse
    [ variableDeclaration "const"
        [variableDeclarator (identifier "__linariaPreval")
           (Some (other "ObjectExpression"))] ]
    [("__linariaPreval", [])]
    (mkCollected [("__linariaPreval", 3)] [] [] [] true).

(** The loop on [withImports] when [a] is requested: the re-export is
    the only candidate. *)
Definition importsLoop : Elimination Tree := pass [2] (start withImports).

(** [withImports] when the pass ends. *)
Definition shakenImports : Tree :=
  fold_left restore (dereferenced importsLoop) (tree importsLoop).

(** [plainDefault] as the liveness part finds it. *)
Definition normalizedDefault : Tree := (normalize plainDefault).2.

End Samples.

(** A decidable statement about a sample is settled by evaluation. *)
Ltac by_evaluation :=
  match goal with
  | |- ?P => apply (bool_decide_unpack P); vm_compute; exact I
  end.

(** ** Facts about the containers *)

Section Containers.
Context {A : Type} `{EqDecision A}.

Lemma has_true (s : list A) x : JSSet.has s x = true ↔ x ∈ s.
Proof. unfold JSSet.has. apply bool_decide_eq_true. Qed.

Lemma has_false (s : list A) x : JSSet.has s x = false ↔ x ∉ s.
Proof. unfold JSSet.has. apply bool_decide_eq_false. Qed.

Lemma elem_of_add (s : list A) x y : y ∈ JSSet.add s x ↔ y ∈ s ∨ y = x.
Proof.
  unfold JSSet.add. destruct (JSSet.has s x) eqn:E.
  - apply has_true in E. split; [auto | intros [?| ->]; auto].
  - rewrite elem_of_app, list_elem_of_singleton. tauto.
Qed.

Lemma NoDup_add (s : list A) x : NoDup s → NoDup (JSSet.add s x).
Proof.
  intros Hs. unfold JSSet.add. destruct (JSSet.has s x) eqn:E; [done|].
  apply has_false in E. apply NoDup_app. split_and!; [done| |apply NoDup_singleton].
  intros y Hy ->%list_elem_of_singleton. done.
Qed.

Lemma length_add_le (s : list A) x : length s ≤ length (JSSet.add s x).
Proof.
  unfold JSSet.add. destruct (JSSet.has s x); [done|].
  rewrite length_app. lia.
Qed.

Lemma length_add_new (s : list A) x :
  x ∉ s → length (JSSet.add s x) = S (length s).
Proof.
  intros E%has_false. unfold JSSet.add. rewrite E, length_app. simpl. lia.
Qed.

Lemma elem_of_fold_add (l s : list A) x :
  x ∈ fold_left JSSet.add l s ↔ x ∈ s ∨ x ∈ l.
Proof.
  revert s. induction l as [|y l IH]; intros s; simpl.
  - rewrite elem_of_nil. tauto.
  - rewrite IH, elem_of_add, elem_of_cons. intuition congruence.
Qed.

Lemma NoDup_fold_add (l s : list A) : NoDup s → NoDup (fold_left JSSet.add l s).
Proof. revert s. induction l; simpl; auto using NoDup_add. Qed.

Lemma elem_of_of_list (l : list A) x : x ∈ JSSet.of_list l ↔ x ∈ l.
Proof.
  unfold JSSet.of_list. rewrite elem_of_fold_add, elem_of_nil. tauto.
Qed.

Lemma NoDup_of_list (l : list A) : NoDup (JSSet.of_list l).
Proof. apply NoDup_fold_add, NoDup_nil_2. Qed.

Lemma of_list_nil_inv (l : list A) : JSSet.of_list l = [] → l = [].
Proof.
  destruct l as [|x l]; [done|]. intros E.
  assert (x ∈ JSSet.of_list (x :: l)) as Hx by (apply elem_of_of_list; left).
  rewrite E in Hx. by apply elem_of_nil in Hx.
Qed.

Lemma elem_of_delete (s : list A) x y : y ∈ JSSet.delete s x ↔ y ∈ s ∧ y ≠ x.
Proof. unfold JSSet.delete. rewrite list_elem_of_filter. tauto. Qed.

Lemma NoDup_delete (s : list A) x : NoDup s → NoDup (JSSet.delete s x).
Proof. apply NoDup_filter. Qed.

Lemma size_pos (s : list A) x : x ∈ s → (JSSet.size s =? 0) = false.
Proof.
  intros Hx. apply Nat.eqb_neq. unfold JSSet.size.
  destruct s; [by apply elem_of_nil in Hx | simpl; lia].
Qed.

End Containers.

Section Filters.
Context {A : Type} (P : A → Prop) `{∀ x, Decision (P x)}.


Lemma filter_none (l : list A) : Forall (λ x, ¬ P x) l → filter P l = [].
Proof.
  induction 1 as [|x l Hx _ IH]; [done|]. by rewrite filter_cons_False.
Qed.

End Filters.

Section Objects.
Context {V : Type}.
Implicit Types (o : list (string * V)) (k : string) (v : V).

Lemma get_set_eq o k v : JSObject.get (JSObject.set o k v) k = Some v.
Proof.
  induction o as [|[k' v'] o IH]; simpl.
  - by rewrite decide_True.
  - destruct (decide (k' = k)) as [->|Hne]; simpl.
    + by rewrite decide_True.
    + by rewrite decide_False.
Qed.

Lemma get_set_ne o k k' v :
  k ≠ k' → JSObject.get (JSObject.set o k v) k' = JSObject.get o k'.
Proof.
  intros Hne. induction o as [|[k0 v0] o IH]; simpl.
  - by rewrite decide_False.
  - destruct (decide (k0 = k)) as [->|Hne0]; simpl.
    + by rewrite !decide_False.
    + by rewrite IH.
Qed.

Lemma get_is_Some o k : is_Some (JSObject.get o k) ↔ k ∈ JSObject.keys o.
Proof.
  unfold JSObject.keys. induction o as [|[k' v'] o IH]; simpl.
  - rewrite elem_of_nil. split; [by intros [? ?]|done].
  - rewrite elem_of_cons. destruct (decide (k' = k)) as [->|Hne].
    + split; [auto | by eexists].
    + rewrite IH. split; [auto | intros [?|?]; congruence].
Qed.

Lemma get_None o k : JSObject.get o k = None ↔ k ∉ JSObject.keys o.
Proof. rewrite <- get_is_Some, eq_None_not_Some. done. Qed.

Lemma keys_set_old o k v :
  k ∈ JSObject.keys o → JSObject.keys (JSObject.set o k v) = JSObject.keys o.
Proof.
  unfold JSObject.keys. induction o as [|[k' v'] o IH]; simpl.
  - by intros ?%elem_of_nil.
  - intros Hk. destruct (decide (k' = k)) as [->|Hne]; simpl; [done|].
    f_equal. apply IH. apply elem_of_cons in Hk as [?|?]; congruence.
Qed.

Lemma keys_set_new o k v :
  k ∉ JSObject.keys o → JSObject.keys (JSObject.set o k v) = JSObject.keys o ++ [k].
Proof.
  unfold JSObject.keys. induction o as [|[k' v'] o IH]; simpl; [done|].
  intros Hk. apply not_elem_of_cons in Hk as [? ?].
  rewrite decide_False by done. simpl. f_equal. by apply IH.
Qed.

Lemma get_elem_of o k v : JSObject.get o k = Some v → (k, v) ∈ o.
Proof.
  induction o as [|[k' v'] o IH]; simpl; [done|].
  destruct (decide (k' = k)) as [->|Hne].
  - intros [= ->]. left.
  - intros ?. right. auto.
Qed.

Lemma elem_of_get o k v :
  NoDup (JSObject.keys o) → (k, v) ∈ o → JSObject.get o k = Some v.
Proof.
  unfold JSObject.keys. induction o as [|[k' v'] o IH]; simpl.
  - by intros _ ?%elem_of_nil.
  - intros [Hk Ho]%NoDup_cons [[= -> ->]|Hin]%elem_of_cons.
    + by rewrite decide_True.
    + rewrite decide_False; [auto|]. intros ->. apply Hk.
      apply list_elem_of_fmap. by exists (k, v).
Qed.

End Objects.

(** ** The fixed-point loop *)

Section Loop.
Context {T : Type} `{Babel T}.
Implicit Types (e : Elimination T) (t : T).

Lemma advances_refl l e : advances l e e.
Proof. unfold advances. naive_solver. Qed.

Lemma advances_trans l1 l2 e1 e2 e3 :
  advances l1 e1 e2 → advances l2 e2 e3 → advances (l1 ++ l2) e1 e3.
Proof.
  intros (Hp1 & Hn1 & Hl1 & Hc1 & Hd1) (Hp2 & Hn2 & Hl2 & Hc2 & Hd2).
  unfold advances. split_and!.
  - congruence.
  - auto.
  - lia.
  - intros Hc. destruct (Hc2 Hc) as [Hc'|?]; [|right; lia].
    destruct (Hc1 Hc') as [?|?]; [by left | right; lia].
  - intros x Hx. rewrite elem_of_app.
    destruct (Hd2 x Hx) as [Hx'|?]; [|tauto].
    destruct (Hd1 x Hx'); tauto.
Qed.

Lemma visit_advances e path : advances [path] e (visit e path).
Proof.
  unfold visit, advances.
  destruct (negb (JSSet.has (deleted e) path) && _) eqn:E; simpl.
  - apply andb_true_iff in E as [Hnew%negb_true_iff%has_false _].
    split_and!; [done|by apply NoDup_add|apply length_add_le| |].
    + intros _. right. rewrite length_add_new by done. lia.
    + intros x [?| ->]%elem_of_add; [by left | right; left].
  - split_and!; [done|done|done|by left|by left].
Qed.

Lemma fold_visit_advances l e : advances l e (fold_left visit l e).
Proof.
  revert e. induction l as [|p l IH]; intros e; simpl.
  - apply advances_refl.
  - change (p :: l) with ([p] ++ l).
    eapply advances_trans; [apply visit_advances | apply IH].
Qed.

Lemma pass_spec forDeleting e :
  let e' := pass forDeleting e in
  passes e' = S (passes e)
  ∧ (NoDup (deleted e) → NoDup (deleted e'))
  ∧ length (deleted e) ≤ length (deleted e')
  ∧ (changed e' = true → length (deleted e) < length (deleted e'))
  ∧ (∀ x, x ∈ deleted e' → x ∈ deleted e ∨ x ∈ forDeleting).
Proof.
  unfold pass.
  destruct (fold_visit_advances forDeleting
    (mkElimination (tree e) (deleted e) (dereferenced e) false (S (passes e))))
    as (Hp & Hn & Hl & Hc & Hd).
  simpl in *. split_and!; [done|done|done| |done].
  intros Hc'. destruct (Hc Hc'); [done | lia].
Qed.

(** Enough passes: one per candidate that is not deleted yet. *)
Lemma eliminate_enough forDeleting fuel e :
  length forDeleting - length (deleted e) ≤ fuel →
  NoDup (deleted e) →
  ∃ e', eliminate fuel forDeleting e = Some e'
      ∧ passes e' - passes e ≤ length forDeleting - length (deleted e)
      ∧ passes e ≤ passes e'
      ∧ NoDup (deleted e')
      ∧ (changed e' = false ∨ length forDeleting ≤ length (deleted e')).
Proof.
  revert e. induction fuel as [|fuel IH]; intros e Hfuel Hnd.
  - simpl. destruct (changed e && _) eqn:E.
    + apply andb_true_iff in E as [_ E%Nat.ltb_lt]. unfold JSSet.size in E. lia.
    + exists e. split_and!; [done|lia|lia|done|].
      apply andb_false_iff in E as [?|E%Nat.ltb_ge]; [by left|by right].
  - simpl. destruct (changed e && _) eqn:E.
    + apply andb_true_iff in E as [_ E%Nat.ltb_lt]. unfold JSSet.size in E.
      destruct (pass_spec forDeleting e) as (Hp & Hn & Hl & Hc & _).
      set (e1 := pass forDeleting e) in *.
      destruct (changed e1) eqn:Hch.
      * specialize (Hc eq_refl).
        destruct (IH e1) as (e' & He' & Hb & Hm & Hn' & Hx); [lia|auto|].
        exists e'. split_and!; [done|lia|lia|done|done].
      * exists e1. split_and!; [|lia|lia|auto|by left].
        destruct fuel; simpl; by rewrite Hch.
    + exists e. split_and!; [done|lia|lia|done|].
      apply andb_false_iff in E as [?|E%Nat.ltb_ge]; [by left|by right].
Qed.

Lemma eliminate_more_fuel forDeleting fuel fuel' e e' :
  eliminate fuel forDeleting e = Some e' → fuel ≤ fuel' →
  eliminate fuel' forDeleting e = Some e'.
Proof.
  revert fuel' e. induction fuel as [|fuel IH]; intros fuel' e; simpl.
  - destruct (changed e && _) eqn:E; [done|].
    intros [= <-] _. destruct fuel'; simpl; by rewrite E.
  - destruct (changed e && _) eqn:E.
    + intros He Hle. destruct fuel' as [|fuel']; [lia|]. simpl. rewrite E.
      apply IH; [done|lia].
    + intros [= <-] _. destruct fuel'; simpl; by rewrite E.
Qed.

Lemma eliminate_start forDeleting t :
  ∃ e, eliminate (length forDeleting) forDeleting (start t) = Some e
     ∧ passes e ≤ length forDeleting
     ∧ NoDup (deleted e)
     ∧ (changed e = false ∨ length forDeleting ≤ length (deleted e)).
Proof.
  destruct (eliminate_enough forDeleting (length forDeleting) (start t))
    as (e & He & Hb & _ & Hn & Hx); simpl; [lia|apply NoDup_nil_2|].
  simpl in Hb. exists e. split_and!; [done|lia|done|done].
Qed.

End Loop.

(** ** The export map after [rearrangeExports] *)

Arguments rearrangeExport : simpl never.
Arguments referenceAssignmentLeft : simpl never.

Section ExportMap.
Context {T : Type} `{Babel T}.
Implicit Types (t : T) (rearranged : Exports).

Lemma elem_of_keys_set {V} (o : list (string * V)) k v k' :
  k' ∈ JSObject.keys (JSObject.set o k v) ↔ k' ∈ JSObject.keys o ∨ k' = k.
Proof.
  destruct (decide (k ∈ JSObject.keys o)) as [Hk|Hk].
  - rewrite keys_set_old by done. split; [auto | intros [?| ->]; auto].
  - rewrite keys_set_new by done. rewrite elem_of_app, list_elem_of_singleton. done.
Qed.

Lemma NoDup_keys_set {V} (o : list (string * V)) k v :
  NoDup (JSObject.keys o) → NoDup (JSObject.keys (JSObject.set o k v)).
Proof.
  intros Hnd. destruct (decide (k ∈ JSObject.keys o)) as [Hk|Hk].
  - by rewrite keys_set_old.
  - rewrite keys_set_new by done. apply NoDup_app. split_and!; [done| |apply NoDup_singleton].
    intros x Hx ->%list_elem_of_singleton. done.
Qed.

(** One entry of [exportRefs]: either nothing happens, or the entry of
    its name is set. *)
Lemma rearrangeExport_cases (acc : Exports * T) (entry : string * list NodePath) :
  (length entry.2 ≤ 1 ∧ rearrangeExport acc entry = acc)
  ∨ (1 < length entry.2
     ∧ ∃ local, (rearrangeExport acc entry).1 = JSObject.set acc.1 entry.1 local).
Proof.
  destruct acc as [rearranged t], entry as [name refs]. unfold rearrangeExport.
  destruct (length refs <=? 1) eqn:E.
  - left. apply Nat.leb_le in E. done.
  - right. apply Nat.leb_gt in E. split; [done|].
    destruct (generateUid t name) as [uid t1].
    destruct (unshiftContainer t1 _) as [declaration t2].
    destruct (pushContainer _ _) as [pushed t5]. simpl. by eexists.
Qed.

Lemma rearrangeExports_keys t exportRefs rearranged k :
  k ∈ JSObject.keys rearranged →
  k ∈ JSObject.keys (rearrangeExports t exportRefs rearranged).1.
Proof.
  unfold rearrangeExports. revert t rearranged.
  induction exportRefs as [|entry l IH]; intros t rearranged Hk; simpl; [done|].
  destruct (rearrangeExport (rearranged, t) entry) as [r' t'] eqn:E.
  apply IH.
  destruct (rearrangeExport_cases (rearranged, t) entry) as [[_ Heq]|[_ [local Heq]]];
    rewrite E in Heq; simpl in Heq.
  - by inversion Heq.
  - subst r'. apply elem_of_keys_set. by left.
Qed.



Lemma rearrangeExports_keys_NoDup t exportRefs rearranged :
  NoDup (JSObject.keys rearranged) →
  NoDup (JSObject.keys (rearrangeExports t exportRefs rearranged).1).
Proof.
  unfold rearrangeExports. revert t rearranged.
  induction exportRefs as [|entry l IH]; intros t rearranged Hnd; simpl; [done|].
  destruct (rearrangeExport (rearranged, t) entry) as [r' t'] eqn:E.
  apply IH.
  destruct (rearrangeExport_cases (rearranged, t) entry) as [[_ Heq]|[_ [local Heq]]];
    rewrite E in Heq; simpl in Heq.
  - by inversion Heq.
  - subst r'. by apply NoDup_keys_set.
Qed.


Lemma normalize_exports t :
  (normalize t).1
  = (rearrangeExports t (exportRefs (collectExportsAndImports t))
       (exports (collectExportsAndImports t))).1.
Proof. unfold normalize. by destruct (rearrangeExports _ _ _). Qed.

Lemma normalize_tree t :
  (normalize t).2
  = fold_left referenceAssignmentLeft
      (JSObject.values (exports (collectExportsAndImports t)))
      (rearrangeExports t (exportRefs (collectExportsAndImports t))
         (exports (collectExportsAndImports t))).2.
Proof. unfold normalize. by destruct (rearrangeExports _ _ _). Qed.

Lemma normalize_keys t k :
  k ∈ JSObject.keys (exports (collectExportsAndImports t)) →
  k ∈ JSObject.keys (normalize t).1.
Proof. rewrite normalize_exports. apply rearrangeExports_keys. Qed.


End ExportMap.

(** ** What the normalizer leaves in place *)

Section Frames.
Context {T : Type} `{BabelLaws T}.
Implicit Types (t : T) (p q : NodePath).

Lemma frame_refl l t : frame l t t.
Proof. by split. Qed.

Lemma frame_trans l1 l2 t1 t2 t3 :
  frame l1 t1 t2 → frame l2 t2 t3 → Forall (valid t1) l2 →
  frame (l1 ++ l2) t1 t3.
Proof.
  intros F1 F2 Hl2. rewrite Forall_forall in Hl2. split.
  - intros q Hq. eapply frame_valid; [done|]. by eapply frame_valid.
  - intros q Hq Hnot Hanc. rewrite not_elem_of_app in Hnot. destruct Hnot as [Hn1 Hn2].
    rewrite (frame_node _ _ _ F2), (frame_node _ _ _ F1); try done.
    + intros p Hp. apply Hanc, elem_of_app. by left.
    + by eapply frame_valid.
    + intros p Hp. eapply frame_ancestor; [done|by apply Hl2|].
      apply Hanc, elem_of_app. by right.
  - intros q k Hq Hnot Hc. rewrite not_elem_of_app in Hnot. destruct Hnot as [Hn1 Hn2].
    assert (get t2 q k = get t1 q k) as E by by eapply frame_get.
    rewrite <- E. eapply frame_get; [done|by eapply frame_valid|done|].
    rewrite E. by eapply frame_valid.
  - intros q p Hp Hanc. eapply frame_ancestor; [done|by eapply frame_valid|].
    by eapply frame_ancestor.
  - intros q Hq. rewrite (frame_removed _ _ _ F2), (frame_removed _ _ _ F1); [done..|].
    by eapply frame_valid.
  - intros n Hn. eapply frame_names; [done|]. by eapply frame_names.
Qed.

Lemma frame_trans_nil l t1 t2 t3 :
  frame l t1 t2 → frame [] t2 t3 → frame l t1 t3.
Proof.
  intros F1 F2. rewrite <- (app_nil_r l). by eapply frame_trans.
Qed.


Lemma frame_nil_node t t' q : frame [] t t' → valid t q → node t' q = node t q.
Proof.
  intros F Hq. apply (frame_node _ _ _ F); [done|apply not_elem_of_nil|].
  by intros ? ?%elem_of_nil.
Qed.



Lemma keeps_refl t : keeps t t.
Proof. split_and!; [done..|]. exists [], []. by rewrite app_nil_r. Qed.

Lemma keeps_trans t1 t2 t3 : keeps t1 t2 → keeps t2 t3 → keeps t1 t3.
Proof.
  intros (V1 & R1 & b1 & a1 & B1) (V2 & R2 & b2 & a2 & B2). split_and!.
  - auto.
  - intros q Hq. rewrite R2, R1; auto.
  - exists (b2 ++ b1), (a1 ++ a2). rewrite B2, B1. by rewrite !app_assoc.
Qed.

Lemma frame_keeps l t t' before after :
  frame l t t' → body t' = before ++ body t ++ after → keeps t t'.
Proof.
  intros F B. split_and!.
  - apply (frame_valid _ _ _ F).
  - apply (frame_removed _ _ _ F).
  - by exists before, after.
Qed.

Lemma frame_keeps_same l t t' : frame l t t' → body t' = body t → keeps t t'.
Proof. intros F B. apply (frame_keeps l t t' [] []); [done|]. by rewrite app_nil_r. Qed.

(** *** One reference site *)

Lemma replaceRef_frame uid t ref :
  frame [ref] t (replaceRef uid t ref)
  ∧ body (replaceRef uid t ref) = body t
  ∧ (valid t ref → node (replaceRef uid t ref) ref = Some (identifier uid)).
Proof.
  unfold replaceRef.
  pose proof (replaceWith_frame t ref (identifier uid)) as F.
  pose proof (replaceWith_body t ref (identifier uid)) as B.
  pose proof (replaceWith_node t ref (identifier uid)) as N.
  pose proof (replaceWith_path t ref (identifier uid)) as P.
  destruct (replaceWith t ref (identifier uid)) as [replaced t1]. simpl in *. subst replaced.
  destruct (isBindingIdentifier t1 ref).
  - pose proof (registerConstantViolation_frame t1 ref) as F2. split_and!.
    + by eapply frame_trans_nil.
    + by rewrite registerConstantViolation_body.
    + intros Hv. rewrite (frame_nil_node _ _ _ F2); [auto|]. by eapply frame_valid.
  - pose proof (reference_frame t1 ref ref false) as F2. split_and!.
    + by eapply frame_trans_nil.
    + by rewrite reference_body.
    + intros Hv. rewrite (frame_nil_node _ _ _ F2); [auto|]. by eapply frame_valid.
Qed.





(** *** All reference sites of one name *)


End Frames.

(** ** [rearrangeExports] *)

Section Rearrange.
Context {T : Type} `{BabelLaws T}.
Implicit Types (t : T) (p q : NodePath) (rearranged : Exports).











End Rearrange.

(** ** Nothing is removed before the liveness part *)

Section Keeps.
Context {T : Type} `{BabelLaws T}.
Implicit Types (t : T) (p q : NodePath).

Lemma replaceRefs_keeps uid refs t : keeps t (fold_left (replaceRef uid) refs t).
Proof.
  revert t. induction refs as [|r refs IH]; intros t; simpl; [apply keeps_refl|].
  eapply keeps_trans; [|apply IH].
  destruct (replaceRef_frame uid t r) as (F & B & _). by eapply frame_keeps_same.
Qed.

Lemma rearrangeExport_keeps (acc : Exports * T) entry :
  keeps acc.2 (rearrangeExport acc entry).2.
Proof.
  destruct acc as [rearranged t], entry as [name refs]. unfold rearrangeExport. simpl.
  destruct (length refs <=? 1); [apply keeps_refl|].
  pose proof (generateUid_frame t name) as F1.
  pose proof (generateUid_body t name) as B1.
  destruct (generateUid t name) as [uid t1]. simpl in *.
  set (var := variableDeclaration _ _).
  pose proof (unshiftContainer_frame t1 var) as F2.
  pose proof (unshiftContainer_body t1 var) as B2.
  destruct (unshiftContainer t1 var) as [declaration t2]. simpl in *.
  set (stmt := expressionStatement _).
  set (t4 := fold_left _ refs _).
  pose proof (pushContainer_frame t4 stmt) as F5.
  pose proof (pushContainer_body t4 stmt) as B5.
  destruct (pushContainer t4 stmt) as [pushed t5]. simpl in *.
  eapply keeps_trans; [by eapply frame_keeps_same|].
  eapply keeps_trans;
    [apply (frame_keeps [] t1 t2 [declaration] []); [done|by rewrite B2, app_nil_r]|].
  eapply keeps_trans;
    [eapply frame_keeps_same;
       [apply registerDeclaration_frame|apply registerDeclaration_body]|].
  eapply keeps_trans; [apply replaceRefs_keeps|]. fold t4.
  eapply keeps_trans; [by apply (frame_keeps [] t4 t5 [] [pushed])|].
  eapply frame_keeps_same; [apply reference_frame|apply reference_body].
Qed.

Lemma rearrangeExports_keeps t exportRefs rearranged :
  keeps t (rearrangeExports t exportRefs rearranged).2.
Proof.
  unfold rearrangeExports. revert t rearranged.
  induction exportRefs as [|entry l IH]; intros t rearranged; simpl; [apply keeps_refl|].
  pose proof (rearrangeExport_keeps (rearranged, t) entry) as K.
  destruct (rearrangeExport (rearranged, t) entry) as [r' t']. simpl in K.
  eapply keeps_trans; [done|apply IH].
Qed.

(** Referencing the ids of exported assignments changes no node and no
    statement. *)
Lemma referenceAssignmentLefts_frame locals t :
  frame [] t (fold_left referenceAssignmentLeft locals t)
  ∧ body (fold_left referenceAssignmentLeft locals t) = body t.
Proof.
  revert t. induction locals as [|local l IH]; intros t; simpl.
  - split; [apply frame_refl|done].
  - destruct (IH (referenceAssignmentLeft t local)) as [F B].
    assert (frame [] t (referenceAssignmentLeft t local)
            ∧ body (referenceAssignmentLeft t local) = body t) as [F1 B1].
    { unfold referenceAssignmentLeft.
      destruct (isAssignmentExpression t local); [|split; [apply frame_refl|done]].
      destruct (isIdentifier t _); [|split; [apply frame_refl|done]].
      split; [apply reference_frame|apply reference_body]. }
    split; [by eapply frame_trans_nil|congruence].
Qed.

Lemma normalize_keeps t : keeps t (normalize t).2.
Proof.
  rewrite normalize_tree.
  eapply keeps_trans; [apply rearrangeExports_keeps|].
  destruct (referenceAssignmentLefts_frame
    (JSObject.values (exports (collectExportsAndImports t)))
    (rearrangeExports t (exportRefs (collectExportsAndImports t))
       (exports (collectExportsAndImports t))).2) as [F B].
  by eapply frame_keeps_same.
Qed.



End Keeps.

(** ** The request and the alive set *)

Section Alive.
Context {T : Type} `{Babel T}.
Implicit Types (t : T) (rearranged : Exports) (collected : Collected).

Lemma elem_of_requested options rearranged name :
  name ∈ requested options rearranged
  ↔ name ∈ onlyExports options
    ∧ ¬ (name = "__linariaPreval"
         ∧ JSObject.get rearranged "__linariaPreval" = None).
Proof.
  unfold requested.
  destruct (JSSet.has _ "__linariaPreval") eqn:Hhas; simpl.
  - destruct (bool_decide (is_Some _)) eqn:Hexp; simpl.
    + apply bool_decide_eq_true in Hexp as [v Hv].
      rewrite elem_of_of_list, Hv. naive_solver.
    + apply bool_decide_eq_false in Hexp. rewrite <- eq_None_not_Some in Hexp.
      rewrite elem_of_delete, elem_of_of_list. naive_solver.
  - apply has_false in Hhas. rewrite elem_of_of_list in Hhas.
    rewrite elem_of_of_list. naive_solver.
Qed.

Lemma NoDup_requested options rearranged : NoDup (requested options rearranged).
Proof.
  unfold requested. destruct (_ && _);
    [apply NoDup_delete|]; apply NoDup_of_list.
Qed.

Lemma elem_of_effective options rearranged name :
  name ∈ effective options rearranged
  ↔ name ∈ requested options rearranged ∧ name ≠ "side-effect".
Proof. apply elem_of_delete. Qed.

Lemma NoDup_effective options rearranged : NoDup (effective options rearranged).
Proof. apply NoDup_delete, NoDup_requested. Qed.

(** [aliveExports] has no repetition, and every node in it is there for
    a requested name or for the name of an import. *)
Lemma NoDup_alive collected rearranged request t :
  NoDup (alive collected rearranged request t).
Proof.
  unfold alive.
  assert (∀ l acc, NoDup acc → NoDup (fold_left (aliveReexport request) l acc)) as H1.
  { induction l as [|x l IH]; intros acc Hacc; simpl; [done|].
    apply IH. unfold aliveReexport. destruct (JSSet.has _ _); [by apply NoDup_add|done]. }
  assert (∀ names l acc, NoDup acc →
            NoDup (fold_left (aliveExport request names t) l acc)) as H2.
  { intros names. induction l as [|[exported local] l IH]; intros acc Hacc; simpl; [done|].
    apply IH. repeat case_match; auto using NoDup_add. }
  apply H1, H2, NoDup_nil_2.
Qed.

Lemma alive_matches collected rearranged request t x :
  (∀ entry, entry ∈ rearranged →
     entry.1 ∈ request
     ∨ nodeName t entry.2 ∉ map IImport.imported (imports collected)) →
  x ∈ alive collected rearranged request t →
  ∃ name, name ∈ request ∧ x ∈ matches collected rearranged name.
Proof.
  intros Hvia. unfold alive.
  set (Q := λ x, ∃ name, name ∈ request ∧ x ∈ matches collected rearranged name).
  assert (∀ l acc, (∀ exp, exp ∈ l → exp ∈ reexports collected) →
            (∀ y, y ∈ acc → Q y) →
            ∀ y, y ∈ fold_left (aliveReexport request) l acc → Q y) as H1.
  { induction l as [|exp l IH]; intros acc Hl Hacc y; simpl; [auto|].
    apply IH; [intros ? ?; apply Hl; by right|].
    intros z. unfold aliveReexport. destruct (JSSet.has _ _) eqn:E; [|auto].
    intros [?| ->]%elem_of_add; [auto|].
    apply has_true in E. exists (IReexport.exported exp). split; [done|].
    unfold matches. apply elem_of_app. right.
    apply list_elem_of_fmap. exists exp. split; [done|].
    apply list_elem_of_filter. split; [done|]. apply Hl. left. }
  assert (∀ l acc, (∀ entry, entry ∈ l → entry ∈ rearranged) →
            (∀ y, y ∈ acc → Q y) →
            ∀ y, y ∈ fold_left
                   (aliveExport request (map IImport.imported (imports collected)) t)
                   l acc → Q y) as H2.
  { induction l as [|[exported local] l IH]; intros acc Hl Hacc y; simpl; [auto|].
    apply IH; [intros ? ?; apply Hl; by right|].
    intros z. destruct (JSSet.has request exported) eqn:E.
    - intros [?| ->]%elem_of_add; [auto|].
      apply has_true in E. exists exported. split; [done|].
      unfold matches. apply elem_of_app. left.
      apply list_elem_of_fmap. exists (exported, local). split; [done|].
      apply list_elem_of_filter. split; [done|]. apply Hl. left.
    - apply has_false in E. case_bool_decide as Himp.
      + destruct (Hvia (exported, local)) as [?|?]; [apply Hl; left|done|done].
      + case_bool_decide as Hin; [|auto].
        intros [?| ->]%elem_of_add; auto. }
  intros Hx. eapply H1; [| |done]; [done|]. intros y Hy.
  eapply H2; [| |done]; [done|]. by intros ? ?%elem_of_nil.
Qed.




End Alive.

(** ** The paths through [enter] *)

Arguments shake : simpl never.
Arguments sweep : simpl never.
Arguments normalize : simpl never.
Arguments requested : simpl never.

Section Flow.
Context {T : Type} `{Babel T}.
Implicit Types (t : T) (rearranged : Exports) (collected : Collected).

Lemma hazard_bool options t :
  bool_decide (hazard options t)
  = JSSet.has (effective options (normalize t).1) "default"
    && bool_decide (is_Some (JSObject.get (normalize t).1 "default"))
    && negb (isEsModule (collectExportsAndImports t)).
Proof.
  destruct (decide (hazard options t)) as [(H1 & H2 & H3)|Hn].
  - rewrite bool_decide_eq_true_2 by done. apply has_true in H1.
    by rewrite H1, (bool_decide_eq_true_2 _ H2), H3.
  - rewrite bool_decide_eq_false_2 by done. symmetry. apply not_true_iff_false.
    intros [[Ha Hb]%andb_true_iff Hc]%andb_true_iff. apply Hn. split_and!.
    + by apply has_true.
    + by apply bool_decide_eq_true in Hb.
    + by apply negb_true_iff.
Qed.

Lemma enter_cases options filename t :
  let collected := collectExportsAndImports t in
  let rearranged := (normalize t).1 in
  let t' := (normalize t).2 in
  enter options filename t =
  if JSSet.size (requested options rearranged) =? 0 then
    Returned FastLane (fold_left remove (body t') t')
      (mkState [] [] [] (JSObject.keys rearranged))
  else if bool_decide (hazard options t) then
    Returned InteropAbort t' (allAlive collected rearranged)
  else if negb (JSSet.has (effective options rearranged) "*") then
    shake options filename collected rearranged (effective options rearranged)
      (JSSet.has (requested options rearranged) "side-effect") t'
  else Returned Shaken t' (publish t' collected rearranged).
Proof.
  simpl. rewrite hazard_bool. unfold enter, effective.
  by destruct (normalize t) as [rearranged t'].
Qed.

Lemma shake_cases options filename collected rearranged request side t :
  shake options filename collected rearranged request side t =
  if JSSet.size (alive collected rearranged request t) =? JSSet.size request then
    sweep options filename collected rearranged side
      (alive collected rearranged request t) t
  else
    match default skip_shaking (ifUnknownExport options) with
    | error =>
        Thrown ("Unknown export(s) requested: "
                +:+ String.concat "," (onlyExports options))
    | reexport_all =>
        sweep options filename collected rearranged side
          (keepAllReexports rearranged collected
             (alive collected rearranged request t)) t
    | skip_shaking => Returned SkipShaking t (allAlive collected rearranged)
    | ignore =>
        sweep options filename collected rearranged side
          (alive collected rearranged request t) t
    end.
Proof.
  unfold shake, alive.
  destruct (JSSet.size _ =? JSSet.size request); simpl; [done|].
  by destruct (default skip_shaking (ifUnknownExport options)).
Qed.

(** The loop is given enough passes: [sweep] ends, with the last exit. *)
Lemma sweep_returns options filename collected rearranged side aliveExports t :
  ∃ e,
    eliminate
      (length (worklist options collected rearranged side aliveExports
                 (strip options filename t)))
      (worklist options collected rearranged side aliveExports
         (strip options filename t))
      (start (strip options filename t)) = Some e
    ∧ sweep options filename collected rearranged side aliveExports t
      = finish collected rearranged e.
Proof.
  unfold sweep.
  destruct (eliminate_start
    (worklist options collected rearranged side aliveExports (strip options filename t))
    (strip options filename t)) as (e & He & _).
  exists e. by rewrite He.
Qed.

Lemma sweep_exit options filename collected rearranged side aliveExports t :
  ∃ t' state,
    sweep options filename collected rearranged side aliveExports t
    = Returned Shaken t' state.
Proof.
  destruct (sweep_returns options filename collected rearranged side aliveExports t)
    as (e & _ & ->).
  unfold finish. by eexists _, _.
Qed.




Lemma enter_not_diverged options filename t : enter options filename t ≠ Diverged.
Proof.
  rewrite enter_cases. simpl.
  destruct (JSSet.size _ =? 0); [done|].
  case_bool_decide; [done|].
  destruct (negb _); [|done].
  rewrite shake_cases.
  repeat case_match; try done;
    match goal with
    | |- sweep ?o ?f ?c ?r ?s ?a ?t ≠ _ =>
        destruct (sweep_exit o f c r s a t) as (? & ? & ->); done
    end.
Qed.

End Flow.

(** ** The model satisfies the laws *)

Module ModelLaws.
Import Model.

Implicit Types (ps : list PathInfo) (p q : NodePath) (t : Tree).

(** *** Parents, ancestors and children depend on the links only *)

Lemma links_lookup ps ps' (i : NodePath) :
  links ps = links ps' →
  match ps !! i, ps' !! i with
  | Some a, Some b => p_parent a = p_parent b ∧ p_removed a = p_removed b
  | None, None => True
  | _, _ => False
  end.
Proof.
  revert ps' i. induction ps as [|a ps IH]; intros [|b ps'] i E;
    unfold links in E; simplify_eq/=; try done.
  destruct i as [|i]; simpl; [done|]. by apply IH.
Qed.

Lemma links_length ps ps' : links ps = links ps' → length ps = length ps'.
Proof.
  intros E. apply (f_equal length) in E. unfold links in E.
  by rewrite !length_fmap in E.
Qed.

Lemma parentOf_links ps ps' p : links ps = links ps' → parentOf ps p = parentOf ps' p.
Proof.
  intros E. pose proof (links_lookup ps ps' p E) as Hl. unfold parentOf.
  destruct (ps !! p) as [i|], (ps' !! p) as [i'|]; simpl in Hl; try done.
  destruct Hl as [-> _]. done.
Qed.

Lemma removedAt_links ps ps' p : links ps = links ps' → removedAt ps p = removedAt ps' p.
Proof.
  intros E. pose proof (links_lookup ps ps' p E) as Hl. unfold removedAt.
  destruct (ps !! p) as [i|], (ps' !! p) as [i'|]; simpl in Hl; try done.
  by destruct Hl as [_ ->].
Qed.

Lemma climb_links ps ps' fuel p callback :
  links ps = links ps' → climb ps fuel p callback = climb ps' fuel p callback.
Proof.
  intros E. revert p. induction fuel as [|fuel IH]; intros p; simpl; [done|].
  rewrite (parentOf_links ps ps' p E). destruct (parentOf ps' p) as [[q k]|]; [|done].
  by rewrite IH.
Qed.

Lemma ancestor_links ps ps' a d : links ps = links ps' → ancestor ps a d = ancestor ps' a d.
Proof. intros E. unfold ancestor. by rewrite (climb_links ps ps'). Qed.

Lemma childFrom_links ps ps' i p k :
  links ps = links ps' → childFrom ps i p k = childFrom ps' i p k.
Proof.
  revert ps' i. induction ps as [|info ps IH]; intros [|info' ps'] i E;
    unfold links in E; simplify_eq/=; [done|].
  match goal with Hp : p_parent info = _ |- _ => rewrite Hp end.
  destruct (_ && _); [done|]. by apply IH.
Qed.

Lemma resolve_links ps ps' keys p :
  links ps = links ps' → resolve ps keys p = resolve ps' keys p.
Proof.
  intros E.
  assert (∀ q k, child ps q k = child ps' q k) as Hc
    by (intros; by apply childFrom_links).
  assert (∀ n keys p, length keys ≤ n → resolve ps keys p = resolve ps' keys p) as Hn.
  { induction n as [|n IH]; intros keys' p' Hlen.
    - destruct keys'; [done | simpl in Hlen; lia].
    - destruct keys' as [|k rest]; [done|]. simpl. rewrite Hc.
      destruct (child ps' p' k).
      + apply IH. simpl in Hlen. lia.
      + destruct rest as [|k2 rest']; [done|]. rewrite Hc.
        destruct (child ps' p' _); [|done]. apply IH. simpl in Hlen. lia. }
  by eapply Hn.
Qed.

Lemma links_setNode ps p n : links (setNode ps p n) = links ps.
Proof.
  unfold setNode, links. destruct (ps !! p) as [info|] eqn:E; [|done].
  rewrite list_fmap_insert. simpl. apply list_insert_id.
  by rewrite list_lookup_fmap, E.
Qed.

Lemma links_propagate ps fuel p n : links (propagate ps fuel p n) = links ps.
Proof.
  revert ps p n. induction fuel as [|fuel IH]; intros ps p n; simpl; [done|].
  destruct (parentOf ps p) as [[q k]|]; [|done].
  destruct (nodeAt ps q); [|done]. by rewrite IH, links_setNode.
Qed.

(** *** Climbing *)

Lemma parentOf_Some ps p q k :
  parentOf ps p = Some (q, k) → q < p ∧ p < length ps.
Proof.
  unfold parentOf. destruct (ps !! p) as [info|] eqn:E; [|done].
  apply lookup_lt_Some in E. destruct (p_parent info) as [[q' k']|]; [|done].
  destruct (q' <? p) eqn:Hlt; [|done]. apply Nat.ltb_lt in Hlt.
  intros [= <- <-]. done.
Qed.

Lemma parentOf_app ps l p : p < length ps → parentOf (ps ++ l) p = parentOf ps p.
Proof. intros Hp. unfold parentOf. by rewrite lookup_app_l. Qed.

Lemma climb_Some ps fuel p callback q :
  climb ps fuel p callback = Some q → q < p ∧ p < length ps ∧ callback q = true.
Proof.
  revert p. induction fuel as [|fuel IH]; intros p; simpl; [done|].
  destruct (parentOf ps p) as [[q' k]|] eqn:E; [|done].
  apply parentOf_Some in E as [Hlt Hp].
  destruct (callback q') eqn:Hcb.
  - intros [= <-]. done.
  - intros Hq. apply IH in Hq as (? & ? & ?). split_and!; [lia|done|done].
Qed.

Lemma climb_fuel ps fuel fuel' p callback :
  p < fuel → p < fuel' → climb ps fuel p callback = climb ps fuel' p callback.
Proof.
  revert fuel' p. induction fuel as [|fuel IH]; intros [|fuel'] p H1 H2; try lia.
  simpl. destruct (parentOf ps p) as [[q k]|] eqn:E; [|done].
  apply parentOf_Some in E as [Hlt _].
  destruct (callback q); [done|]. apply IH; lia.
Qed.

Lemma climb_app ps l fuel p callback :
  p < length ps → climb (ps ++ l) fuel p callback = climb ps fuel p callback.
Proof.
  revert p. induction fuel as [|fuel IH]; intros p Hp; simpl; [done|].
  rewrite parentOf_app by done.
  destruct (parentOf ps p) as [[q k]|] eqn:E; [|done].
  apply parentOf_Some in E as [Hlt _].
  destruct (callback q); [done|]. apply IH. lia.
Qed.

Lemma ancestor_true ps a d : ancestor ps a d = true → a < d ∧ d < length ps.
Proof.
  unfold ancestor. intros [q Hq]%bool_decide_eq_true.
  apply climb_Some in Hq as (? & ? & ->%bool_decide_eq_true). done.
Qed.

Lemma ancestor_app ps l a d :
  d < length ps → ancestor (ps ++ l) a d = ancestor ps a d.
Proof. intros Hd. unfold ancestor. by rewrite climb_app. Qed.

Lemma ancestor_parent ps a p q k :
  parentOf ps p = Some (q, k) → ancestor ps a p = false →
  a ≠ q ∧ ancestor ps a q = false.
Proof.
  intros Hpar Hanc. unfold ancestor in *.
  apply bool_decide_eq_false in Hanc. simpl in Hanc. rewrite Hpar in Hanc.
  pose proof (parentOf_Some _ _ _ _ Hpar) as [Hlt _].
  case_bool_decide as Hq.
  - destruct Hanc. by eexists.
  - split; [done|]. apply bool_decide_eq_false.
    by rewrite (climb_fuel ps (S q) p q) by lia.
Qed.

(** *** Replacing a node *)

Lemma nodeAt_setNode ps p n q :
  nodeAt (setNode ps p n) q
  = if bool_decide (q = p) then (λ _, n) <$> nodeAt ps q else nodeAt ps q.
Proof.
  unfold setNode, nodeAt. destruct (ps !! p) as [info|] eqn:E.
  - case_bool_decide as Hq.
    + subst q. rewrite list_lookup_insert_eq by by eapply lookup_lt_Some.
      by rewrite E.
    + by rewrite list_lookup_insert_ne.
  - case_bool_decide as Hq; [|done]. subst q. by rewrite E.
Qed.

Lemma length_setNode ps p n : length (setNode ps p n) = length ps.
Proof. apply links_length, links_setNode. Qed.

Lemma length_propagate ps fuel p n : length (propagate ps fuel p n) = length ps.
Proof. apply links_length, links_propagate. Qed.

(** Only ancestors of [p] get a new node. *)
Lemma nodeAt_propagate ps fuel p n q :
  ancestor ps q p = false →
  nodeAt (propagate ps fuel p n) q = nodeAt ps q.
Proof.
  revert ps p n. induction fuel as [|fuel IH]; intros ps p n Hanc; simpl; [done|].
  destruct (parentOf ps p) as [[p' k]|] eqn:E; [|done].
  destruct (nodeAt ps p') as [m|]; [|done].
  destruct (ancestor_parent _ _ _ _ _ E Hanc) as [Hne Hanc'].
  rewrite IH.
  - rewrite nodeAt_setNode. by rewrite bool_decide_eq_false_2.
  - by rewrite (ancestor_links _ ps) by apply links_setNode.
Qed.

(** *** Allocation *)

Section NodeInduction.
Variable P : Node → Prop.
Hypothesis Hidentifier : ∀ name, P (identifier name).
Hypothesis HvariableDeclarator : ∀ id init,
  P id → from_option P True init → P (variableDeclarator id init).
Hypothesis HvariableDeclaration : ∀ kind ds, Forall P ds → P (variableDeclaration kind ds).
Hypothesis HmemberExpression : ∀ o prop, P o → P prop → P (memberExpression o prop).
Hypothesis HassignmentExpression : ∀ op l r, P l → P r → P (assignmentExpression op l r).
Hypothesis HexpressionStatement : ∀ e, P e → P (expressionStatement e).
Hypothesis Hother : ∀ type, P (other type).

Fixpoint Node_nested_ind (n : Node) : P n :=
  match n with
  | identifier name => Hidentifier name
  | variableDeclarator id init =>
      HvariableDeclarator id init (Node_nested_ind id)
        (match init as o return from_option P True o with
         | Some j => Node_nested_ind j
         | None => I
         end)
  | variableDeclaration kind ds =>
      HvariableDeclaration kind ds
        ((fix go (ds : list Node) : Forall P ds :=
            match ds with
            | [] => Forall_nil_2 P
            | d :: ds => Forall_cons_2 P d ds (Node_nested_ind d) (go ds)
            end) ds)
  | memberExpression o prop =>
      HmemberExpression o prop (Node_nested_ind o) (Node_nested_ind prop)
  | assignmentExpression op l r =>
      HassignmentExpression op l r (Node_nested_ind l) (Node_nested_ind r)
  | expressionStatement e => HexpressionStatement e (Node_nested_ind e)
  | other type => Hother type
  end.

End NodeInduction.

Lemma inner_le m m' info : m' ≤ m → inner m info → inner m' info.
Proof. intros Hle (q & k & ? & ?). exists q, k. split; [done|lia]. Qed.

Lemma grown_more ps block ps' info ps'' :
  grown (length ps) ps block ps' → inner (length ps) info →
  grown (length ps') ps' [info] ps'' →
  grown (length ps) ps block ps''.
Proof.
  intros (rest & -> & Hrest) Hinfo (rest' & -> & Hrest').
  exists (rest ++ info :: rest'). split.
  - by rewrite <- !app_assoc.
  - apply Forall_app. split; [done|]. constructor; [done|].
    eapply Forall_impl; [done|]. intros x. apply inner_le.
    rewrite !length_app. lia.
Qed.

Lemma alloc_grown n parent ps :
  grown (length ps) ps [mkPath n parent false] (alloc n parent ps).
Proof.
  revert parent ps. induction n as
    [name|id init IHid IHinit|kind ds IHds|o prop IHo IHp|op l r IHl IHr|e IHe|type]
    using Node_nested_ind; intros parent ps; simpl.
  - exists []. by rewrite app_nil_r.
  - assert (grown (length ps) ps [mkPath (variableDeclarator id init) parent false]
              (ps ++ [mkPath (variableDeclarator id init) parent false])) as G0.
    { exists []. by rewrite app_nil_r. }
    assert (grown (length ps) ps [mkPath (variableDeclarator id init) parent false]
              (alloc id (Some (length ps, "id"))
                 (ps ++ [mkPath (variableDeclarator id init) parent false]))) as G1.
    { eapply grown_more; [done| |apply IHid]. by exists (length ps), "id". }
    destruct init as [i|]; [|done].
    eapply grown_more; [done| |apply IHinit]. by exists (length ps), "init".
  - set (self := mkPath (variableDeclaration kind ds) parent false).
    assert (∀ l i ps1, Forall (λ d, ∀ parent ps, grown (length ps) ps
                               [mkPath d parent false] (alloc d parent ps)) l →
              grown (length ps) ps [self] ps1 →
              grown (length ps) ps [self]
                (allocEach alloc (length ps) "declarations" l i ps1)) as Hall.
    { clear IHds. intros l. induction l as [|d l IH]; intros i ps1 Hl G; simpl; [done|].
      apply Forall_cons in Hl as [Hd Hl]. apply IH; [done|].
      eapply grown_more; [done| |apply Hd].
      by exists (length ps), (listKey "declarations" i). }
    apply Hall; [done|]. exists []. by rewrite app_nil_r.
  - eapply grown_more; [| |apply IHp]; [|by exists (length ps), "property"].
    eapply grown_more; [| |apply IHo]; [|by exists (length ps), "object"].
    exists []. by rewrite app_nil_r.
  - eapply grown_more; [| |apply IHr]; [|by exists (length ps), "right"].
    eapply grown_more; [| |apply IHl]; [|by exists (length ps), "left"].
    exists []. by rewrite app_nil_r.
  - eapply grown_more; [| |apply IHe]; [|by exists (length ps), "expression"].
    exists []. by rewrite app_nil_r.
  - exists []. by rewrite app_nil_r.
Qed.

(** *** Children *)

Lemma inner_outer m info : inner m info → outer m info.
Proof. intros (q & k & E & ?). unfold outer. by rewrite E. Qed.

Lemma childFrom_Some ps i p k c :
  childFrom ps i p k = Some c → i ≤ c ∧ c < i + length ps ∧ p < c.
Proof.
  revert i. induction ps as [|info ps IH]; intros i; simpl; [done|].
  destruct (_ && _) eqn:E.
  - intros [= <-]. apply andb_true_iff in E as [_ E%Nat.ltb_lt]. lia.
  - intros Hc. apply IH in Hc. lia.
Qed.

Lemma childFrom_app ps l i p k :
  childFrom (ps ++ l) i p k
  = match childFrom ps i p k with
    | Some c => Some c
    | None => childFrom l (i + length ps) p k
    end.
Proof.
  revert i. induction ps as [|info ps IH]; intros i; simpl.
  - by rewrite Nat.add_0_r.
  - destruct (_ && _); [done|]. rewrite IH. by rewrite Nat.add_succ_r.
Qed.

Lemma childFrom_outer l m i p k :
  Forall (outer m) l → p < m → childFrom l i p k = None.
Proof.
  intros Hl Hp. revert i. induction Hl as [|info l Hinfo _ IH]; intros i; simpl; [done|].
  rewrite IH. unfold outer in Hinfo. case_bool_decide as E; [|done].
  rewrite E in Hinfo. lia.
Qed.

Lemma child_app ps l p k :
  Forall (outer (length ps)) l → p < length ps → child (ps ++ l) p k = child ps p k.
Proof.
  intros Hl Hp. unfold child. rewrite childFrom_app.
  destruct (childFrom ps 0 p k); [done|]. by eapply childFrom_outer.
Qed.

Lemma resolve_app ps l keys p c :
  Forall (outer (length ps)) l → p < length ps →
  resolve ps keys p = Some c → resolve (ps ++ l) keys p = Some c.
Proof.
  intros Hl.
  assert (∀ n keys p, length keys ≤ n → p < length ps →
            resolve ps keys p = Some c → resolve (ps ++ l) keys p = Some c) as Hn.
  { induction n as [|n IH]; intros keys' p' Hlen Hp.
    - destruct keys'; [done | simpl in Hlen; lia].
    - destruct keys' as [|k rest]; [done|]. simpl. rewrite child_app by done.
      destruct (child ps p' k) as [c'|] eqn:E.
      + apply childFrom_Some in E. apply IH; [simpl in Hlen; lia|simpl in E; lia].
      + destruct rest as [|k2 rest']; [done|]. rewrite child_app by done.
        destruct (child ps p' (k +:+ "." +:+ k2)) as [c'|] eqn:E'; [|auto].
        apply childFrom_Some in E'. apply IH; [simpl in Hlen; lia|simpl in E'; lia]. }
  intros Hp. by eapply Hn.
Qed.

Lemma resolve_bound ps keys p c :
  p < length ps → resolve ps keys p = Some c → c < length ps.
Proof.
  assert (∀ n keys p, length keys ≤ n → p < length ps →
            resolve ps keys p = Some c → c < length ps) as Hn.
  { induction n as [|n IH]; intros keys' p' Hlen Hp.
    - destruct keys'; [by intros [= <-] | simpl in Hlen; lia].
    - destruct keys' as [|k rest]; [by intros [= <-]|]. simpl.
      destruct (child ps p' k) as [c'|] eqn:E.
      + apply childFrom_Some in E. apply IH; [simpl in Hlen; lia|simpl in E; lia].
      + destruct rest as [|k2 rest']; [done|].
        destruct (child ps p' (k +:+ "." +:+ k2)) as [c'|] eqn:E'; [|done].
        apply childFrom_Some in E'. apply IH; [simpl in Hlen; lia|simpl in E'; lia]. }
  intros Hp. by eapply Hn.
Qed.

(** The first entry of [l2] is the child when nothing before it is. *)
Lemma childFrom_found l1 info l2 i p k :
  Forall (λ x, p_parent x ≠ Some (p, k)) (drop (S p - i) l1) →
  p_parent info = Some (p, k) → p < i + length l1 →
  childFrom (l1 ++ info :: l2) i p k = Some (i + length l1).
Proof.
  revert i. induction l1 as [|x l1 IH]; intros i Hl1 Hinfo Hp; simpl.
  - simpl in Hp. rewrite Nat.add_0_r, bool_decide_eq_true_2 by done.
    by rewrite (proj2 (Nat.ltb_lt _ _)) by lia.
  - assert ((bool_decide (p_parent x = Some (p, k)) && (p <? i)) = false) as ->.
    { destruct (decide (p < i)) as [Hlt|Hge].
      - replace (S p - i) with 0 in Hl1 by lia. rewrite drop_0 in Hl1.
        apply Forall_cons in Hl1 as [Hx _]. by rewrite bool_decide_eq_false_2.
      - rewrite (proj2 (Nat.ltb_ge _ _)) by lia. apply andb_false_r. }
    rewrite IH; [f_equal; simpl; lia| |done|simpl in Hp; lia].
    destruct (decide (p < i)) as [Hlt|Hge].
    + replace (S p - i) with 0 in Hl1 by lia. rewrite drop_0 in Hl1.
      apply Forall_cons in Hl1 as [_ Hl1].
      replace (S p - S i) with 0 by lia. by rewrite drop_0.
    + replace (S p - i) with (S (S p - S i)) in Hl1 by lia. done.
Qed.

(** *** The right-hand side of a pushed assignment *)

Lemma pushed_right ps op l r :
  let s := length ps in
  let ps' := alloc (expressionStatement (assignmentExpression op l r)) None ps in
  ∃ c, resolve ps' (splitDots "expression.right") s = Some c
     ∧ nodeAt ps' c = Some r ∧ length ps ≤ c.
Proof.
  simpl.
  set (S := mkPath (expressionStatement (assignmentExpression op l r)) None false).
  set (A := mkPath (assignmentExpression op l r) (Some (length ps, "expression")) false).
  destruct (alloc_grown l (Some (length (ps ++ [S]), "left")) ((ps ++ [S]) ++ [A]))
    as (restL & EL & HL).
  rewrite EL.
  set (L := mkPath l (Some (length (ps ++ [S]), "left")) false) in *.
  set (l1 := ((ps ++ [S]) ++ [A]) ++ [L] ++ restL) in *.
  destruct (alloc_grown r (Some (length (ps ++ [S]), "right")) l1) as (restR & ER & HR).
  rewrite ER.
  set (R := mkPath r (Some (length (ps ++ [S]), "right")) false) in *.
  assert (length (ps ++ [S]) = Datatypes.S (length ps)) as Hs
    by (rewrite length_app; simpl; lia).
  assert (length l1 = 3 + length ps + length restL) as Hl1.
  { unfold l1. rewrite !length_app. simpl. lia. }
  exists (length l1). split_and!.
  - change (splitDots "expression.right") with ["expression"; "right"].
    cbn [resolve]. unfold child.
    assert (childFrom (l1 ++ [R] ++ restR) 0 (length ps) "expression"
            = Some (0 + length (ps ++ [S]))) as ->.
    { assert (l1 ++ [R] ++ restR
              = (ps ++ [S]) ++ A :: ([L] ++ restL ++ [R] ++ restR)) as ->
        by (unfold l1; by rewrite <- !app_assoc).
      apply childFrom_found; [|done|rewrite Hs; lia].
      replace (Datatypes.S (length ps) - 0) with (length (ps ++ [S])) by lia.
      rewrite drop_all. constructor. }
    simpl.
    assert (childFrom (l1 ++ R :: restR) 0 (length (ps ++ [S])) "right"
            = Some (0 + length l1)) as ->; [|done].
    apply (childFrom_found l1 R restR); [|done|lia].
    unfold l1. rewrite Hs.
    replace (Datatypes.S (Datatypes.S (length ps)) - 0)
      with (length ((ps ++ [S]) ++ [A])) by (rewrite !length_app; simpl; lia).
    rewrite drop_app_length. constructor.
    + simpl. rewrite Hs. intros [= ?].
    + eapply Forall_impl; [done|]. intros x (q & k & -> & Hq).
      rewrite !length_app in Hq. simpl in Hq. intros [= -> _]. lia.
  - unfold nodeAt. change ([R] ++ restR) with (R :: restR).
    by rewrite list_lookup_middle.
  - lia.
Qed.

(** *** Collision-free identifiers *)

Lemma pretty_go_length (x : N) s :
  String.length s ≤ String.length (pretty_N_go x s).
Proof.
  revert s. induction (N.lt_wf_0 x) as [x _ IH]. intros s.
  destruct (decide (x = 0%N)) as [->|Hx]; [by rewrite pretty_N_go_0|].
  rewrite pretty_N_go_step by lia.
  specialize (IH (x `div` 10)%N). 
  assert (x `div` 10 < x)%N as Hlt by (apply N.div_lt; lia).
  specialize (IH Hlt (String (pretty_N_char (x `mod` 10)) s)). simpl in IH. lia.
Qed.

Lemma pretty_nat_nonempty (n : nat) : pretty n ≠ "".
Proof.
  unfold pretty, pretty_nat, pretty, pretty_N. case_decide as Hn; [done|].
  rewrite pretty_N_go_step by lia. intros E.
  pose proof (pretty_go_length (N.of_nat n `div` 10)
    (String (pretty_N_char (N.of_nat n `mod` 10)) "")) as Hlen.
  rewrite E in Hlen. simpl in Hlen. lia.
Qed.

Lemma candidate_inj base i j :
  1 ≤ i → 1 ≤ j → candidate base i = candidate base j → i = j.
Proof.
  unfold candidate. intros Hi Hj E.
  apply (inj (String.app "_")), (inj (String.app base)) in E.
  destruct (i <=? 1) eqn:Ei, (j <=? 1) eqn:Ej.
  - apply Nat.leb_le in Ei, Ej. lia.
  - apply Nat.leb_le in Ei. apply Nat.leb_gt in Ej.
    symmetry in E. by apply pretty_nat_nonempty in E.
  - by apply pretty_nat_nonempty in E.
  - by apply (inj pretty).
Qed.

Lemma firstFree_fresh taken base i fuel :
  (∃ j, i ≤ j ≤ i + fuel ∧ candidate base j ∉ taken) →
  firstFree taken base i fuel ∉ taken.
Proof.
  revert i. induction fuel as [|fuel IH]; intros i (j & Hj & Hfree); simpl.
  - case_bool_decide as E; [|done]. by replace j with i in Hfree by lia.
  - case_bool_decide as E; [|done]. apply IH. exists j. split; [|done].
    destruct (decide (j = i)) as [->|]; [done|lia].
Qed.

(** Among more candidates than names one is free. *)
Lemma candidate_free taken base :
  ∃ j, 1 ≤ j ≤ 1 + length taken ∧ candidate base j ∉ taken.
Proof.
  destruct (decide (Forall (λ j, candidate base j ∈ taken) (seq 1 (Datatypes.S (length taken)))))
    as [Hall|Hsome].
  - exfalso. rewrite Forall_forall in Hall.
    assert (candidate base <$> seq 1 (Datatypes.S (length taken)) ⊆+ taken) as Hsub.
    { apply NoDup_submseteq.
      - apply NoDup_fmap_2_strong; [|apply NoDup_seq].
        intros x y Hx%elem_of_seq Hy%elem_of_seq E.
        apply (candidate_inj base); [lia..|done].
      - intros x (j & -> & Hj)%list_elem_of_fmap. by apply Hall. }
    apply submseteq_length in Hsub. rewrite length_fmap, length_seq in Hsub. lia.
  - apply not_Forall_Exists in Hsome; [|apply _].
    apply Exists_exists in Hsome as (j & Hj%elem_of_seq & Hfree).
    exists j. split; [lia|done].
Qed.

Lemma generated_fresh t name :
  (generateUid t name).1 ∉ used t.
Proof.
  simpl. apply firstFree_fresh.
  destruct (candidate_free (used t) (uidBase name)) as (j & ? & ?). by exists j.
Qed.

(** *** Frames of the model's operations *)

Lemma valid_model t q : valid t q ↔ q < length (paths t).
Proof.
  unfold valid. simpl. unfold nodeAt. rewrite fmap_is_Some. apply lookup_lt_is_Some.
Qed.

Lemma get_model_valid t q k :
  valid t (get t q k) →
  ∃ c, resolve (paths t) (splitDots k) q = Some c ∧ get t q k = c.
Proof.
  rewrite valid_model. simpl.
  destruct (resolve (paths t) (splitDots k) q) as [c|]; simpl; [by exists c|lia].
Qed.

(** The tree has the same paths: only the scope or the names differ. *)
Lemma frame_same_paths l t t' :
  paths t' = paths t → (∀ n, n ∈ used t → n ∈ used t') → frame l t t'.
Proof.
  intros E Hused. split; simpl; rewrite ?valid_model, ?E; try done.
  - intros q. by rewrite !valid_model, E.
  - intros n Hn%bool_decide_eq_true. apply bool_decide_eq_true. auto.
Qed.

(** New paths were added after the old ones. *)
Lemma frame_grown t t' block :
  paths t' = paths t ++ block → Forall (outer (length (paths t))) block →
  used t' = used t → frame [] t t'.
Proof.
  intros E Hblock Hused. split; simpl.
  - intros q. rewrite !valid_model, E, length_app. lia.
  - intros q Hq%valid_model _ _. rewrite E. unfold nodeAt. by rewrite lookup_app_l.
  - intros q k Hq%valid_model _ Hc.
    apply get_model_valid in Hc as (c & Hc & Hg). simpl in Hg.
    rewrite Hg, E. by rewrite (resolve_app _ _ _ _ c).
  - intros q p Hp%valid_model. rewrite E. by rewrite ancestor_app.
  - intros q Hq%valid_model. rewrite E. unfold removedAt. by rewrite lookup_app_l.
  - by rewrite Hused.
Qed.

Lemma alloc_block n ps :
  ∃ block, alloc n None ps = ps ++ block
         ∧ Forall (outer (length ps)) block
         ∧ block !! 0 = Some (mkPath n None false).
Proof.
  destruct (alloc_grown n None ps) as (rest & E & Hrest).
  exists ([mkPath n None false] ++ rest). split_and!; [done| |done].
  constructor; [done|]. eapply Forall_impl; [done|]. apply inner_outer.
Qed.

Lemma frame_replace t p n :
  frame [p] t (with_paths t (propagate (setNode (paths t) p n) (S p) p n)).
Proof.
  set (ps' := propagate _ _ _ _).
  assert (links ps' = links (paths t)) as Hlinks
    by (unfold ps'; by rewrite links_propagate, links_setNode).
  split; simpl.
  - intros q. rewrite !valid_model. simpl. by rewrite (links_length _ _ Hlinks).
  - intros q _ Hq Hanc. rewrite not_elem_of_cons in Hq. destruct Hq as [Hq _].
    unfold ps'. rewrite nodeAt_propagate.
    + rewrite nodeAt_setNode. by rewrite bool_decide_eq_false_2.
    + rewrite (ancestor_links _ (paths t)) by apply links_setNode.
      apply Hanc. left.
  - intros q k _ _ _. by rewrite (links_length _ _ Hlinks), (resolve_links _ _ _ _ Hlinks).
  - intros q x _. by rewrite (ancestor_links _ _ _ _ Hlinks).
  - intros q _. by rewrite (removedAt_links _ _ _ Hlinks).
  - done.
Qed.

(** *** The scope *)

Lemma bindingIndex_Some sc name b :
  bindingIndex sc name = Some b → ∃ refs, sc !! b = Some (name, refs).
Proof.
  unfold bindingIndex. intros [[b' [name' refs]] [Hfind [= ->]]]%fmap_Some.
  apply list_find_Some in Hfind as (Hb & Hname & _). simpl in Hname. subst.
  by exists refs.
Qed.

Lemma bindingIndex_names sc sc' name :
  sc'.*1 = sc.*1 → bindingIndex sc' name = bindingIndex sc name.
Proof.
  unfold bindingIndex.
  revert sc'. induction sc as [|[n r] sc IH]; intros [|[n' r'] sc'] E;
    simplify_eq/=; [done|].
  case_decide; [done|].
  match goal with Hn : sc'.*1 = sc.*1 |- _ => specialize (IH sc' Hn) end.
  destruct (list_find _ sc') as [[? ?]|], (list_find _ sc) as [[? ?]|];
    simplify_eq/=; done.
Qed.

Lemma editRefs_paths t p f : paths (editRefs t p f) = paths t.
Proof. unfold editRefs. by repeat case_match. Qed.

Lemma editRefs_top t p f : top (editRefs t p f) = top t.
Proof. unfold editRefs. by repeat case_match. Qed.

Lemma editRefs_names t p f : (scope (editRefs t p f)).*1 = (scope t).*1.
Proof.
  unfold editRefs.
  destruct (nodeAt (paths t) p) as [[name| | | | | |]|]; try done.
  destruct (bindingIndex (scope t) name) as [b|] eqn:Eb; [|done]. simpl.
  destruct (bindingIndex_Some _ _ _ Eb) as [refs Hb].
  rewrite list_fmap_insert. simpl. apply list_insert_id.
  by rewrite list_lookup_fmap, Hb.
Qed.

Lemma editRefs_used t p f : used (editRefs t p f) = used t.
Proof.
  unfold used. rewrite editRefs_names. f_equal. unfold editRefs. by repeat case_match.
Qed.

(** What [editRefs] does to the reference sites of a binding. *)
Lemma editRefs_refs t p f b :
  refsOf (scope (editRefs t p f)) b = refsOf (scope t) b
  ∨ (refsOf (scope (editRefs t p f)) b = f (refsOf (scope t) b)
     ∧ ∃ name, nodeAt (paths t) p = Some (identifier name)
             ∧ bindingIndex (scope t) name = Some b).
Proof.
  unfold editRefs.
  destruct (nodeAt (paths t) p) as [[name| | | | | |]|] eqn:En; auto.
  destruct (bindingIndex (scope t) name) as [b'|] eqn:Eb; auto. simpl.
  destruct (bindingIndex_Some _ _ _ Eb) as [refs Hb].
  destruct (decide (b = b')) as [->|Hne].
  - right. split; [|by exists name]. unfold refsOf.
    rewrite list_lookup_insert_eq by by eapply lookup_lt_Some. by rewrite Hb.
  - left. unfold refsOf. by rewrite list_lookup_insert_ne.
Qed.

Lemma editRefs_ok t p f :
  (∀ refs, NoDup refs → NoDup (f refs)) → refs_ok t → refs_ok (editRefs t p f).
Proof.
  intros Hf Hok b. simpl.
  destruct (editRefs_refs t p f b) as [->|[-> _]]; [apply Hok|apply Hf, Hok].
Qed.

Lemma declare_names sc name x : x ∈ sc.*1 → x ∈ (declare sc name).*1.
Proof.
  unfold declare. case_bool_decide; [done|]. rewrite fmap_app, elem_of_app. by left.
Qed.

Lemma fold_declare_names l sc x : x ∈ sc.*1 → x ∈ (fold_left declare l sc).*1.
Proof. revert sc. induction l; simpl; auto using declare_names. Qed.

(** *** Removal *)

Lemma removedAt_mark ps p q :
  removedAt (mark p ps) q = true ↔ q = p ∨ ancestor ps p q = true ∨ removedAt ps q = true
                                 ∨ length ps ≤ q.
Proof.
  unfold removedAt, mark. rewrite list_lookup_imap.
  destruct (ps !! q) as [info|] eqn:E; simpl.
  - apply lookup_lt_Some in E. case_bool_decide as Hq; simpl.
    + split; [by left|done].
    + destruct (ancestor ps p q); simpl; [split; [auto|done]|].
      split; [auto|]. intros [?|[?|[?|?]]]; [done|done|done|lia].
  - apply lookup_ge_None in E. split; [auto|done].
Qed.

Lemma clean_refs t b :
  refsOf (scope (clean t)) b
  = filter (λ r, removedAt (paths t) r = false) (refsOf (scope t) b).
Proof.
  unfold clean, refsOf. simpl.
  change (map ?f (scope t)) with (f <$> scope t).
  rewrite list_lookup_fmap. by destruct (scope t !! b).
Qed.

Lemma clean_ok t : refs_ok t → refs_ok (clean t).
Proof.
  intros Hok b. change (NoDup (refsOf (scope (clean t)) b)).
  rewrite clean_refs. apply NoDup_filter, Hok.
Qed.

Lemma detach_scope t p : scope (detach t p) = scope t.
Proof. done. Qed.

Lemma fold_detach_scope l t : scope (fold_left detach l t) = scope t.
Proof. revert t. induction l as [|p l IH]; intros t; simpl; [done|]. by rewrite IH. Qed.

#[global] Instance model_laws : BabelLaws Tree.
Proof.
  split.
  - (* isAncestor_valid *)
    intros t a d [? ?]%ancestor_true. apply valid_model. lia.
  - (* generateUid *)
    intros t n. apply frame_same_paths; [done|].
    intros x. unfold used. simpl. rewrite !elem_of_app. tauto.
  - done.
  - intros t n. apply bool_decide_eq_false. apply generated_fresh.
  - intros t n. apply bool_decide_eq_true. unfold used. simpl.
    rewrite !elem_of_app, list_elem_of_singleton. auto.
  - (* unshiftContainer *)
    intros t n. destruct (alloc_block n (paths t)) as (block & E & Hb & _).
    by apply (frame_grown _ _ block).
  - done.
  - intros t n. destruct (alloc_block n (paths t)) as (block & E & _ & H0).
    simpl. unfold nodeAt. rewrite E, lookup_app_r by lia.
    by rewrite Nat.sub_diag, H0.
  - intros t n. rewrite valid_model. simpl. lia.
  - (* pushContainer *)
    intros t n. destruct (alloc_block n (paths t)) as (block & E & Hb & _).
    by apply (frame_grown _ _ block).
  - done.
  - intros t n. destruct (alloc_block n (paths t)) as (block & E & _ & H0).
    simpl. unfold nodeAt. rewrite E, lookup_app_r by lia.
    by rewrite Nat.sub_diag, H0.
  - intros t n. rewrite valid_model. simpl. lia.
  - intros t op l r. simpl.
    destruct (pushed_right (paths t) op l r) as (c & Hc & Hn & Hle).
    simpl in Hc, Hn. rewrite Hc. simpl. split; [done|].
    rewrite valid_model. lia.
  - (* replaceWith *)
    intros t p n. apply frame_replace.
  - done.
  - done.
  - intros t p n Hp%valid_model.
    change (nodeAt (propagate (setNode (paths t) p n) (S p) p n) p = Some n).
    assert (ancestor (setNode (paths t) p n) p p = false) as Hself.
    { destruct (ancestor _ p p) eqn:E; [|done]. apply ancestor_true in E. lia. }
    rewrite nodeAt_propagate, nodeAt_setNode by done.
    rewrite bool_decide_eq_true_2 by done. unfold nodeAt.
    destruct (lookup_lt_is_Some_2 (paths t) p Hp) as [info ->]. done.
  - (* registerDeclaration *)
    intros t p. simpl. destruct (nodeAt (paths t) p) as [n|]; [|apply frame_refl].
    apply frame_same_paths; [done|]. intros x. unfold used. simpl.
    rewrite !elem_of_app. intros [?|?]; [by left|right]. by apply fold_declare_names.
  - intros t p. simpl. by destruct (nodeAt (paths t) p).
  - intros t p. by apply frame_same_paths.
  - done.
  - (* remove *)
    intros t p. simpl. apply removedAt_mark. by left.
  - intros t p q Hq. simpl. apply removedAt_mark. auto.
  - done.
  - (* reference *)
    intros t p r force. apply frame_same_paths; [apply editRefs_paths|].
    intros x. simpl. by rewrite editRefs_used.
  - intros t p r force. apply editRefs_top.
  - intros t p r force x name. simpl. apply bindingIndex_names, editRefs_names.
  - intros t p force b Hid Hb. simpl in *.
    unfold isIdentifier, nodeName in *. simpl in *.
    destruct (nodeAt (paths t) p) as [[name| | | | | |]|] eqn:En; try done.
    unfold editRefs. rewrite En, Hb. simpl.
    destruct (bindingIndex_Some _ _ _ Hb) as [refs Hl].
    unfold refsOf. rewrite list_lookup_insert_eq by by eapply lookup_lt_Some.
    rewrite Hl. simpl. case_bool_decide; [done|].
    apply elem_of_app. right. left.
  - intros t p r force b q Hq. simpl in *.
    destruct (editRefs_refs t p
      (λ refs, if bool_decide (r ∈ refs) then refs else refs ++ [r]) b) as [->|[-> _]];
      [done|].
    case_bool_decide; [done|]. apply elem_of_app. by left.
  - intros t p r force. apply editRefs_ok. intros refs Hnd.
    case_bool_decide; [done|]. apply NoDup_app. split_and!; [done| |apply NoDup_singleton].
    intros x Hx ->%list_elem_of_singleton. done.
  - intros t p. apply editRefs_ok. intros refs. apply NoDup_filter.
  - intros t a Hok. simpl. apply clean_ok. intros b. apply Hok.
  - intros t ps Hok. simpl. apply clean_ok. intros b. simpl.
    rewrite fold_detach_scope. apply Hok.
Qed.

End ModelLaws.

(** ** Severed edges *)

Section Restore.
Context {T : Type} `{BabelLaws T}.
Implicit Types (t : T) (e : Elimination T) (p q : NodePath).









End Restore.

(** ** The specification's claims *)

Section Claims.
Context {T : Type} `{BabelLaws T}.
Implicit Types (t : T) (options : IShakerOptions) (filename : string).

(** C1.  For a module with a [default] export whose ES-module kind is not
    confirmed, a request that contains [default] ends at the interop abort,
    whatever else it contains: the collected imports and re-exports and the
    export map are published as they are, the dead-export list is empty,
    every collected export name is a published export, and the module
    keeps every statement it had, none of them removed. *)
Theorem interop_hazard_deletes_nothing options filename t :
  is_Some (JSObject.get (exports (collectExportsAndImports t)) "default") →
  isEsModule (collectExportsAndImports t) = false →
  "default" ∈ onlyExports options →
  enter options filename t
  = Returned InteropAbort (normalize t).2
      (mkState (imports (collectExportsAndImports t)) (normalize t).1
         (reexports (collectExportsAndImports t)) [])
  ∧ (∀ name, name ∈ JSObject.keys (exports (collectExportsAndImports t)) →
       name ∈ JSObject.keys (normalize t).1)
  ∧ keeps t (normalize t).2.
Proof.
  intros Hdefault Hkind Hrequest.
  assert ("default" ∈ requested options (normalize t).1) as Hreq.
  { apply elem_of_requested. split; [done|]. by intros [? _]. }
  split_and!; [|apply normalize_keys|apply normalize_keeps].
  rewrite enter_cases. simpl. rewrite (size_pos _ _ Hreq).
  rewrite bool_decide_eq_true_2; [done|]. split_and!; [|
    by apply get_is_Some, normalize_keys, get_is_Some|done].
  apply elem_of_effective. by split.
Qed.










End Claims.

(** C5.  The loop ends: given as many passes as the worklist is long it
    returns, having made at most that many passes, with no node marked
    deleted twice and with its guard false; more passes change nothing;
    and [enter] never runs out of passes. *)
Theorem elimination_terminates {T : Type} `{Babel T} :
  (∀ (t : T) forDeleting,
     ∃ e,
       eliminate (length forDeleting) forDeleting (start t) = Some e
       ∧ passes e ≤ length forDeleting
       ∧ NoDup (deleted e)
       ∧ (changed e = false ∨ length forDeleting ≤ JSSet.size (deleted e))
       ∧ ∀ fuel, length forDeleting ≤ fuel →
           eliminate fuel forDeleting (start t) = Some e)
  ∧ (∀ options filename (t : T), enter options filename t ≠ Diverged).
Proof.
  split.
  - intros t forDeleting.
    destruct (eliminate_start forDeleting t) as (e & He & Hp & Hn & Hx).
    exists e. split_and!; [done..|].
    intros fuel Hfuel. by eapply eliminate_more_fuel.
  - apply enter_not_diverged.
Qed.

(** ** The claims on the sample modules *)

Section Evaluation.
Import Model Samples.

(** C9, at the failing input.  [export const { x, y } = compute()] with
    both names requested under the policy [error]: the alive set holds one
    node, the request two names, and the pass fails although both names are
    exported. *)
Theorem shared_initializer_fails_under_error :
  enter (options ["x"; "y"] (Some error)) "module.js" destructured
  = Thrown "Unknown export(s) requested: x,y".
Proof. vm_compute. reflexivity. Qed.


(** C1 on [plainDefault], with a second, unknown name in the request and
    the policy [error]. *)
Lemma interop_hazard_witness :
  enter (options ["default"; "zzz"] (Some error)) "module.js" plainDefault
  = Returned InteropAbort normalizedDefault (mkState [] [("default", 18)] [] [])
  ∧ keeps plainDefault normalizedDefault.
Proof.
  destruct (interop_hazard_deletes_nothing
    (options ["default"; "zzz"] (Some error)) "module.js" plainDefault)
    as (He & _ & Hk); [by_evaluation|reflexivity|by_evaluation|].
  split; [exact He|exact Hk].
Defined.











End Evaluation.

(** ** The liveness part on its own *)

Section Liveness.
Context {T : Type} `{Babel T}.
Implicit Types (t : T) (rearranged : Exports) (collected : Collected).
Implicit Types (request : list string) (p : NodePath).

Lemma elem_of_aliveReexports request l acc p :
  p ∈ fold_left (aliveReexport request) l acc
  ↔ p ∈ acc
    ∨ ∃ exp, exp ∈ l ∧ IReexport.local exp = p ∧ IReexport.exported exp ∈ request.
Proof.
  revert acc. induction l as [|exp l IH]; intros acc; simpl.
  - split; [auto|]. intros [?|(? & []%elem_of_nil & _)]. done.
  - rewrite IH. clear IH. setoid_rewrite elem_of_cons. unfold aliveReexport.
    destruct (JSSet.has request (IReexport.exported exp)) eqn:E;
      [apply has_true in E; rewrite elem_of_add|apply has_false in E];
      naive_solver.
Qed.

Lemma elem_of_aliveExports request names t l acc p :
  p ∈ fold_left (aliveExport request names t) l acc
  ↔ p ∈ acc
    ∨ ∃ exported, (exported, p) ∈ l
        ∧ (exported ∈ request ∨ nodeName t p ∈ names).
Proof.
  revert acc. induction l as [|[exported local] l IH]; intros acc; simpl.
  - split; [auto|]. intros [?|(? & []%elem_of_nil & _)]. done.
  - rewrite IH. clear IH. setoid_rewrite elem_of_cons.
    destruct (JSSet.has request exported) eqn:E;
      [apply has_true in E|apply has_false in E].
    + rewrite elem_of_add. naive_solver.
    + case_bool_decide as Himp.
      * rewrite elem_of_add. naive_solver.
      * case_bool_decide as Hin; [rewrite elem_of_add|]; naive_solver.
Qed.

Lemma elem_of_alive collected rearranged request t p :
  p ∈ alive collected rearranged request t
  ↔ (∃ exported, (exported, p) ∈ rearranged
       ∧ (exported ∈ request
          ∨ nodeName t p ∈ map IImport.imported (imports collected)))
    ∨ (∃ exp, exp ∈ reexports collected ∧ IReexport.local exp = p
         ∧ IReexport.exported exp ∈ request).
Proof.
  unfold alive. rewrite elem_of_aliveReexports, elem_of_aliveExports.
  rewrite elem_of_nil. tauto.
Qed.

(** X1.  A node is alive exactly when it is the node of an export whose
    name is requested or whose identifier carries the name of an import,
    or the local node of a re-export whose exported name is requested.
    The branch for a node that is alive already adds no node. *)
Theorem alive_exactly collected rearranged request t p :
  p ∈ alive collected rearranged request t
  ↔ (∃ exported, (exported, p) ∈ rearranged
       ∧ (exported ∈ request
          ∨ nodeName t p ∈ map IImport.imported (imports collected)))
    ∨ (∃ exp, exp ∈ reexports collected ∧ IReexport.local exp = p
         ∧ IReexport.exported exp ∈ request).
Proof. apply elem_of_alive. Qed.

Lemma elem_of_aliveWildcards l acc p :
  p ∈ fold_left aliveWildcard l acc
  ↔ p ∈ acc
    ∨ ∃ exp, exp ∈ l ∧ IReexport.exported exp = "*" ∧ IReexport.local exp = p.
Proof.
  revert acc. induction l as [|exp l IH]; intros acc; simpl.
  - split; [auto|]. intros [?|(? & []%elem_of_nil & _)]. done.
  - rewrite IH. clear IH. setoid_rewrite elem_of_cons. unfold aliveWildcard.
    case_bool_decide as E; [rewrite elem_of_add|]; naive_solver.
Qed.

Lemma NoDup_aliveWildcards l acc :
  NoDup acc → NoDup (fold_left aliveWildcard l acc).
Proof.
  revert acc. induction l as [|exp l IH]; intros acc Hacc; simpl; [done|].
  apply IH. unfold aliveWildcard. case_bool_decide; auto using NoDup_add.
Qed.

(** X2.  Under [reexport-all] the alive set is extended, never reduced:
    it holds what it held, the node of the export named [*] when there is
    one, and the local node of every re-export of [*]; nothing else; and
    it is still without repetition. *)
Theorem reexport_all_adds_the_wildcards rearranged collected aliveExports :
  (∀ p, p ∈ keepAllReexports rearranged collected aliveExports
        ↔ p ∈ aliveExports
          ∨ JSObject.get rearranged "*" = Some p
          ∨ ∃ exp, exp ∈ reexports collected
              ∧ IReexport.exported exp = "*" ∧ IReexport.local exp = p)
  ∧ (NoDup aliveExports →
     NoDup (keepAllReexports rearranged collected aliveExports)).
Proof.
  unfold keepAllReexports. split.
  - intros p. rewrite elem_of_aliveWildcards.
    destruct (JSObject.get rearranged "*") as [star|];
      [rewrite elem_of_add|]; naive_solver.
  - intros Hnd. apply NoDup_aliveWildcards.
    destruct (JSObject.get rearranged "*"); auto using NoDup_add.
Qed.

Lemma elem_of_worklist options collected rearranged side aliveExports t p :
  p ∈ worklist options collected rearranged side aliveExports t
  ↔ ((p ∉ aliveExports)
     ∧ (p ∈ JSObject.values rearranged
        ∨ ∃ exp, exp ∈ reexports collected ∧ IReexport.local exp = p))
    ∨ (default false (keepSideEffects options) = false ∧ side = false
       ∧ ∃ i, i ∈ imports collected ∧ IImport.imported i = "side-effect"
           ∧ shouldKeepSideEffect (IImport.source i) = false
           ∧ IImport.local i = p)
    ∨ (∃ i dead, i ∈ imports collected ∧ IImport.imported i ≠ "side-effect"
         ∧ dead ∈ default [] (deadImports options)
         ∧ DeadImport.what dead = IImport.imported i
         ∧ DeadImport.from dead = IImport.source i
         ∧ match getBindingForExport t (IImport.local i) with
           | Some binding => p ∈ referencePaths t binding
           | None => p = IImport.local i
           end).
Proof.
  assert (p ∈ flat_map (deadImportTargets (default [] (deadImports options)) t)
                (imports collected)
          ↔ ∃ i dead, i ∈ imports collected ∧ IImport.imported i ≠ "side-effect"
              ∧ dead ∈ default [] (deadImports options)
              ∧ DeadImport.what dead = IImport.imported i
              ∧ DeadImport.from dead = IImport.source i
              ∧ match getBindingForExport t (IImport.local i) with
                | Some binding => p ∈ referencePaths t binding
                | None => p = IImport.local i
                end) as Hdead.
  { rewrite list_elem_of_In, in_flat_map. split.
    - intros (i & Hi%list_elem_of_In & Hp%list_elem_of_In).
      unfold deadImportTargets in Hp.
      case_bool_decide as Eside; [by apply elem_of_nil in Hp|].
      destruct (existsb _ _) eqn:Esome; [|by apply elem_of_nil in Hp].
      apply existsb_exists in Esome as (dead & Hd%list_elem_of_In & E).
      apply andb_true_iff in E as [E1%bool_decide_eq_true E2%bool_decide_eq_true].
      exists i, dead. split_and!; [done..|].
      destruct (getBindingForExport t (IImport.local i)); [done|].
      by apply list_elem_of_singleton in Hp.
    - intros (i & dead & Hi & Eside & Hd & E1 & E2 & Hp).
      exists i. split; [by apply list_elem_of_In|]. apply list_elem_of_In.
      unfold deadImportTargets. rewrite bool_decide_eq_false_2 by done.
      assert (existsb (λ deadImport,
                bool_decide (IImport.imported i = DeadImport.what deadImport)
                && bool_decide (IImport.source i = DeadImport.from deadImport))
                (default [] (deadImports options)) = true) as ->.
      { apply existsb_exists. exists dead. split; [by apply list_elem_of_In|].
        by rewrite !bool_decide_eq_true_2. }
      destruct (getBindingForExport t (IImport.local i)); [done|].
      by apply list_elem_of_singleton. }
  assert (p ∈ filter (λ exp, exp ∉ aliveExports)
                (JSObject.values rearranged
                 ++ map IReexport.local (reexports collected))
          ↔ (p ∉ aliveExports)
            ∧ (p ∈ JSObject.values rearranged
               ∨ ∃ exp, exp ∈ reexports collected ∧ IReexport.local exp = p))
    as Hexports.
  { rewrite list_elem_of_filter, elem_of_app, list_elem_of_fmap. naive_solver. }
  assert (p ∈ map IImport.local
                (filter (λ i, shouldKeepSideEffect (IImport.source i) = false)
                   (filter (λ i, sideEffectImport i = true) (imports collected)))
          ↔ ∃ i, i ∈ imports collected ∧ IImport.imported i = "side-effect"
              ∧ shouldKeepSideEffect (IImport.source i) = false
              ∧ IImport.local i = p) as Hside.
  { rewrite list_elem_of_fmap. unfold sideEffectImport. split.
    - intros (i & -> & [Hk [Hs%bool_decide_eq_true Hi]%list_elem_of_filter]
                         %list_elem_of_filter).
      by exists i.
    - intros (i & Hi & Hs & Hk & <-). exists i. split; [done|].
      apply list_elem_of_filter. split; [done|].
      apply list_elem_of_filter. split; [|done]. by apply bool_decide_eq_true. }
  unfold worklist.
  destruct (default false (keepSideEffects options)), side; simpl;
    destruct (0 <? length (default [] (deadImports options))) eqn:Elen;
    rewrite ?elem_of_app, ?Hexports, ?Hside, ?Hdead;
    try (apply Nat.ltb_ge in Elen;
         destruct (default [] (deadImports options)) as [|? ?] eqn:Edead;
         [|simpl in Elen; lia]);
    try setoid_rewrite elem_of_nil; naive_solver.
Qed.

(** X3.  The worklist holds exactly: the nodes of exports and the local
    nodes of re-exports that are not alive; when side effects are neither
    to be kept nor requested, the local node of every side-effect import
    whose source is not to be kept; and, for every other import that a
    configured dead import names by what and from, its local node when it
    has no binding and all reference sites of its binding when it has one. *)
Theorem worklist_exactly options collected rearranged side aliveExports t p :
  p ∈ worklist options collected rearranged side aliveExports t
  ↔ ((p ∉ aliveExports)
     ∧ (p ∈ JSObject.values rearranged
        ∨ ∃ exp, exp ∈ reexports collected ∧ IReexport.local exp = p))
    ∨ (default false (keepSideEffects options) = false ∧ side = false
       ∧ ∃ i, i ∈ imports collected ∧ IImport.imported i = "side-effect"
           ∧ shouldKeepSideEffect (IImport.source i) = false
           ∧ IImport.local i = p)
    ∨ (∃ i dead, i ∈ imports collected ∧ IImport.imported i ≠ "side-effect"
         ∧ dead ∈ default [] (deadImports options)
         ∧ DeadImport.what dead = IImport.imported i
         ∧ DeadImport.from dead = IImport.source i
         ∧ match getBindingForExport t (IImport.local i) with
           | Some binding => p ∈ referencePaths t binding
           | None => p = IImport.local i
           end).
Proof. apply elem_of_worklist. Qed.

(** X4.  Without configured dead imports, the node of a requested export
    is no candidate for deletion, unless it is the local node of an
    import. *)
Theorem requested_export_is_no_candidate
    options collected rearranged side request t name p :
  (name, p) ∈ rearranged →
  name ∈ request →
  default [] (deadImports options) = [] →
  Forall (λ i, IImport.local i ≠ p) (imports collected) →
  p ∉ worklist options collected rearranged side
        (alive collected rearranged request t) t.
Proof.
  intros Hentry Hname Hdead Himports. rewrite Forall_forall in Himports.
  rewrite elem_of_worklist, Hdead.
  intros [[Hp _]|[(_ & _ & i & Hi & _ & _ & E)|(i & dead & _ & _ & []%elem_of_nil & _)]].
  - apply Hp, elem_of_alive. left. exists name. auto.
  - by apply (Himports i).
Qed.

End Liveness.

(** ** The loop and the reporter on their own *)

Section Reporter.
Context {T : Type} `{Babel T}.
Implicit Types (t : T) (e : Elimination T) (rearranged : Exports).
Implicit Types (collected : Collected) (p : NodePath).

Lemma visit_within e path p :
  (p ∈ deleted (visit e path) → p ∈ deleted e ∨ p = path)
  ∧ (p ∈ dereferenced (visit e path) → p ∈ dereferenced e ∨ p = path).
Proof.
  unfold visit.
  destruct (negb (JSSet.has (deleted e) path) && _);
    destruct ((0 <? _) && isIdentifier (tree e) path); simpl;
    rewrite ?elem_of_add, ?elem_of_app, ?list_elem_of_singleton; tauto.
Qed.

Lemma fold_visit_within l e p :
  (p ∈ deleted (fold_left visit l e) → p ∈ deleted e ∨ p ∈ l)
  ∧ (p ∈ dereferenced (fold_left visit l e) → p ∈ dereferenced e ∨ p ∈ l).
Proof.
  revert e. induction l as [|path l IH]; intros e; simpl; [tauto|].
  destruct (IH (visit e path)) as [H1 H2].
  destruct (visit_within e path p) as [V1 V2].
  rewrite elem_of_cons. split; intros Hp.
  - destruct (H1 Hp) as [Hv|?]; [destruct (V1 Hv)|]; tauto.
  - destruct (H2 Hp) as [Hv|?]; [destruct (V2 Hv)|]; tauto.
Qed.

Lemma eliminate_within fuel forDeleting e e' p :
  eliminate fuel forDeleting e = Some e' →
  (p ∈ deleted e' → p ∈ deleted e ∨ p ∈ forDeleting)
  ∧ (p ∈ dereferenced e' → p ∈ dereferenced e ∨ p ∈ forDeleting).
Proof.
  revert e. induction fuel as [|fuel IH]; intros e; simpl.
  - destruct (changed e && _); [done|]. intros [= <-]. tauto.
  - destruct (changed e && _); [|intros [= <-]; tauto].
    intros He. destruct (IH _ He) as [H1 H2].
    destruct (fold_visit_within forDeleting
      (mkElimination (tree e) (deleted e) (dereferenced e) false (S (passes e))) p)
      as [V1 V2]. simpl in V1, V2. unfold pass in H1, H2. tauto.
Qed.

(** X5.  The loop marks as deleted, and severs, candidates of its
    worklist only; over an empty worklist its body never runs and the
    tree is the one it was given. *)
Theorem elimination_stays_within_the_worklist t forDeleting fuel e :
  eliminate fuel forDeleting (start t) = Some e →
  (∀ p, p ∈ deleted e → p ∈ forDeleting)
  ∧ (∀ p, p ∈ dereferenced e → p ∈ forDeleting)
  ∧ (forDeleting = [] → e = start t).
Proof.
  intros He. split_and!.
  - intros p Hp. destruct (eliminate_within _ _ _ _ p He) as [[[]%elem_of_nil|?] _]; done.
  - intros p Hp. destruct (eliminate_within _ _ _ _ p He) as [_ [[]%elem_of_nil|?]]; done.
  - intros ->. destruct fuel; simpl in He; by inversion He.
Qed.

Lemma set_new {V} (o : list (string * V)) k v :
  k ∉ JSObject.keys o → JSObject.set o k v = o ++ [(k, v)].
Proof.
  unfold JSObject.keys. induction o as [|[k' v'] o IH]; simpl; [done|].
  intros Hk. apply not_elem_of_cons in Hk as [? ?].
  rewrite decide_False by done. f_equal. by apply IH.
Qed.

Lemma fold_report t l alive dead :
  NoDup (JSObject.keys alive ++ JSObject.keys l) →
  fold_left (report t) l (alive, dead)
  = (alive ++ filter (λ entry, isRemoved t entry.2 = false) l,
     dead ++ map fst (filter (λ entry, isRemoved t entry.2 = true) l)).
Proof.
  revert alive dead. induction l as [|[exported local] l IH]; intros alive dead Hnd.
  - simpl. by rewrite !app_nil_r.
  - simpl. simpl in Hnd. destruct (isRemoved t local) eqn:E.
    + rewrite IH.
      * rewrite filter_cons_False by (simpl; congruence).
        rewrite filter_cons_True by done. simpl. by rewrite <- app_assoc.
      * apply NoDup_app in Hnd as (Ha & Hd & Hl). apply NoDup_cons in Hl as [_ Hl].
        apply NoDup_app. split_and!; [done| |done].
        intros x Hx Hx'. apply (Hd x Hx). by right.
    + assert (exported ∉ JSObject.keys alive) as Hnew.
      { apply NoDup_app in Hnd as (_ & Hd & _). intros Hx. apply (Hd _ Hx). left. }
      rewrite set_new by done. rewrite IH.
      * rewrite filter_cons_True by done.
        rewrite filter_cons_False by (simpl; congruence).
        by rewrite <- app_assoc.
      * unfold JSObject.keys in *. rewrite fmap_app. simpl.
        rewrite <- app_assoc. simpl.
        exact Hnd.
Qed.

Lemma publish_filters t collected rearranged :
  NoDup (JSObject.keys rearranged) →
  publish t collected rearranged
  = mkState (withoutRemovedImports t (imports collected))
      (filter (λ entry, isRemoved t entry.2 = false) rearranged)
      (withoutRemovedReexports t (reexports collected))
      (map fst (filter (λ entry, isRemoved t entry.2 = true) rearranged)).
Proof.
  intros Hnd. unfold publish. by rewrite fold_report.
Qed.

(** X6.  The reporter goes through the export map once: the surviving
    exports are its entries whose node is not removed, the dead exports
    the names of its entries whose node is removed, both in the map's
    order; imports and re-exports are the collected ones whose local node
    is not removed. *)
Theorem report_partitions_the_exports t collected rearranged :
  NoDup (JSObject.keys rearranged) →
  st_exports (publish t collected rearranged)
  = filter (λ entry, isRemoved t entry.2 = false) rearranged
  ∧ st_deadExports (publish t collected rearranged)
    = map fst (filter (λ entry, isRemoved t entry.2 = true) rearranged)
  ∧ st_imports (publish t collected rearranged)
    = filter (λ i, isRemoved t (IImport.local i) = false) (imports collected)
  ∧ st_reexports (publish t collected rearranged)
    = filter (λ i, isRemoved t (IReexport.local i) = false) (reexports collected).
Proof. intros Hnd. by rewrite publish_filters. Qed.


End Reporter.

(** ** The summary of [post] *)

Section Summary.
Implicit Types (acc : list (string * list string)) (s : string).

Lemma get_ensureSource acc source s :
  JSObject.get (ensureSource acc source) s
  = match JSObject.get acc s with
    | Some names => Some names
    | None => if decide (source = s) then Some [] else None
    end.
Proof.
  unfold ensureSource. case_bool_decide as E.
  - destruct (JSObject.get acc s) eqn:Es; [done|].
    destruct (decide (source = s)) as [->|]; [|done].
    rewrite Es in E. by destruct E.
  - rewrite <- eq_None_not_Some in E.
    destruct (decide (source = s)) as [->|Hne].
    + by rewrite get_set_eq, E.
    + rewrite get_set_ne by done. by destruct (JSObject.get acc s).
Qed.

Lemma get_pushImported acc source imported s :
  JSObject.get (pushImported acc source imported) s
  = match JSObject.get acc s with
    | Some names => Some (if decide (source = s) then names ++ [imported] else names)
    | None => None
    end.
Proof.
  unfold pushImported. destruct (JSObject.get acc source) as [names|] eqn:E.
  - destruct (decide (source = s)) as [->|Hne].
    + by rewrite get_set_eq, E.
    + rewrite get_set_ne by done. by destruct (JSObject.get acc s).
  - destruct (JSObject.get acc s) eqn:Es; [|done].
    destruct (decide (source = s)) as [->|]; [congruence|done].
Qed.

Lemma keys_ensureSource acc source :
  JSObject.keys (ensureSource acc source) = JSSet.add (JSObject.keys acc) source.
Proof.
  unfold ensureSource, JSSet.add. case_bool_decide as E.
  - apply get_is_Some in E. apply has_true in E as ->. done.
  - rewrite get_is_Some in E. rewrite keys_set_new by done.
    apply has_false in E as ->. done.
Qed.

Lemma keys_pushImported acc source imported :
  JSObject.keys (pushImported acc source imported) = JSObject.keys acc.
Proof.
  unfold pushImported. destruct (JSObject.get acc source) eqn:E; [|done].
  apply keys_set_old, get_is_Some. by rewrite E.
Qed.

Lemma get_summarizeImport acc i s :
  JSObject.get (summarizeImport acc i) s
  = if decide (IImport.source i = s)
    then Some (default [] (JSObject.get acc s)
               ++ filter (λ name, name ≠ "") [IImport.imported i])
    else JSObject.get acc s.
Proof.
  unfold summarizeImport. case_bool_decide as E.
  - rewrite get_pushImported, get_ensureSource.
    rewrite filter_cons_True by done. rewrite filter_nil.
    destruct (JSObject.get acc s), (decide (IImport.source i = s)); done.
  - rewrite get_ensureSource. rewrite filter_cons_False by (by intros []). rewrite filter_nil.
    destruct (JSObject.get acc s), (decide (IImport.source i = s));
      simpl; by rewrite ?app_nil_r.
Qed.

Lemma get_summarizeReexport acc exp s :
  JSObject.get (summarizeReexport acc exp) s
  = if decide (IReexport.source exp = s)
    then Some (default [] (JSObject.get acc s) ++ [IReexport.imported exp])
    else JSObject.get acc s.
Proof.
  unfold summarizeReexport. rewrite get_pushImported, get_ensureSource.
  destruct (JSObject.get acc s), (decide (IReexport.source exp = s)); done.
Qed.

Lemma get_summarizeImports l acc s :
  JSObject.get (fold_left summarizeImport l acc) s
  = if bool_decide (s ∈ map IImport.source l)
    then Some (default [] (JSObject.get acc s)
               ++ filter (λ name, name ≠ "")
                    (map IImport.imported
                       (filter (λ i, IImport.source i = s) l)))
    else JSObject.get acc s.
Proof.
  revert acc. induction l as [|i l IH]; intros acc; simpl.
  - done.
  - rewrite IH, get_summarizeImport. clear IH.
    destruct (decide (IImport.source i = s)) as [E|E].
    + rewrite (filter_cons_True (λ i0, IImport.source i0 = s)) by exact E.
      rewrite (bool_decide_eq_true_2 (s ∈ _ :: _)) by (rewrite E; left).
      change (map IImport.imported (i :: ?l'))
        with ([IImport.imported i] ++ map IImport.imported l').
      rewrite filter_app, app_assoc. cbn [from_option id].
      case_bool_decide as Hin; [done|].
      rewrite (filter_none (λ i0, IImport.source i0 = s) l); [by rewrite app_nil_r|].
      apply Forall_forall. intros y Hy Es. apply Hin.
      apply list_elem_of_fmap. by exists y.
    + rewrite (filter_cons_False (λ i0, IImport.source i0 = s)) by exact E.
      case_bool_decide as Hin.
      * rewrite bool_decide_eq_true_2 by (by right). done.
      * rewrite bool_decide_eq_false_2; [done|].
        intros [?|?]%elem_of_cons; [congruence|done].
Qed.

Lemma get_summarizeReexports l acc s :
  JSObject.get (fold_left summarizeReexport l acc) s
  = if bool_decide (s ∈ map IReexport.source l)
    then Some (default [] (JSObject.get acc s)
               ++ map IReexport.imported
                    (filter (λ exp, IReexport.source exp = s) l))
    else JSObject.get acc s.
Proof.
  revert acc. induction l as [|exp l IH]; intros acc; simpl.
  - done.
  - rewrite IH, get_summarizeReexport. clear IH.
    destruct (decide (IReexport.source exp = s)) as [E|E].
    + rewrite (filter_cons_True (λ exp0, IReexport.source exp0 = s)) by exact E.
      rewrite (bool_decide_eq_true_2 (s ∈ _ :: _)) by (rewrite E; left).
      change (map IReexport.imported (exp :: ?l'))
        with ([IReexport.imported exp] ++ map IReexport.imported l').
      rewrite app_assoc. cbn [from_option id].
      case_bool_decide as Hin; [done|].
      rewrite (filter_none (λ exp0, IReexport.source exp0 = s) l);
        [by rewrite app_nil_r|].
      apply Forall_forall. intros y Hy Es. apply Hin.
      apply list_elem_of_fmap. by exists y.
    + rewrite (filter_cons_False (λ exp0, IReexport.source exp0 = s)) by exact E.
      case_bool_decide as Hin.
      * rewrite bool_decide_eq_true_2 by (by right). done.
      * rewrite bool_decide_eq_false_2; [done|].
        intros [?|?]%elem_of_cons; [congruence|done].
Qed.

Lemma keys_summarizeImports l acc :
  JSObject.keys (fold_left summarizeImport l acc)
  = fold_left JSSet.add (map IImport.source l) (JSObject.keys acc).
Proof.
  revert acc. induction l as [|i l IH]; intros acc; simpl; [done|].
  rewrite IH. f_equal. unfold summarizeImport.
  case_bool_decide; by rewrite ?keys_pushImported, keys_ensureSource.
Qed.

Lemma keys_summarizeReexports l acc :
  JSObject.keys (fold_left summarizeReexport l acc)
  = fold_left JSSet.add (map IReexport.source l) (JSObject.keys acc).
Proof.
  revert acc. induction l as [|exp l IH]; intros acc; simpl; [done|].
  rewrite IH. f_equal. unfold summarizeReexport.
  by rewrite keys_pushImported, keys_ensureSource.
Qed.

(** X7.  The import summary of [post] has one entry per source of a
    published import or re-export, in the order in which the sources
    first occur, imports before re-exports.  The entry of a source lists
    the imported names of its imports, the empty name left out, and then
    the imported names of its re-exports, each in the published order;
    a source of neither has no entry. *)
Theorem post_merges_by_source state :
  JSObject.keys (ev_imports (post state))
  = JSSet.of_list (map IImport.source (st_imports state)
                   ++ map IReexport.source (st_reexports state))
  ∧ ∀ source,
      JSObject.get (ev_imports (post state)) source
      = if bool_decide (source ∈ map IImport.source (st_imports state)
                                 ++ map IReexport.source (st_reexports state))
        then Some (filter (λ name, name ≠ "")
                     (map IImport.imported
                        (filter (λ i, IImport.source i = source) (st_imports state)))
                   ++ map IReexport.imported
                        (filter (λ exp, IReexport.source exp = source)
                           (st_reexports state)))
        else None.
Proof.
  unfold post. simpl. split.
  - rewrite keys_summarizeReexports, keys_summarizeImports.
    unfold JSSet.of_list. by rewrite fold_left_app.
  - intros source. rewrite get_summarizeReexports, get_summarizeImports. simpl.
    destruct (bool_decide (source ∈ map IImport.source (st_imports state))) eqn:E1;
      destruct (bool_decide (source ∈ map IReexport.source (st_reexports state))) eqn:E2;
      [apply bool_decide_eq_true in E1|apply bool_decide_eq_true in E1
      |apply bool_decide_eq_false in E1|apply bool_decide_eq_false in E1];
      [apply bool_decide_eq_true in E2|apply bool_decide_eq_false in E2
      |apply bool_decide_eq_true in E2|apply bool_decide_eq_false in E2].
    + rewrite bool_decide_eq_true_2 by (apply elem_of_app; auto). done.
    + rewrite bool_decide_eq_true_2 by (apply elem_of_app; auto).
      rewrite (filter_none (λ exp, IReexport.source exp = source)); [by rewrite app_nil_r|].
      apply Forall_forall. intros y Hy Es. apply E2.
      apply list_elem_of_fmap. by exists y.
    + rewrite bool_decide_eq_true_2 by (apply elem_of_app; auto).
      rewrite (filter_none (λ i, IImport.source i = source)); [done|].
      apply Forall_forall. intros y Hy Es. apply E1.
      apply list_elem_of_fmap. by exists y.
    + rewrite bool_decide_eq_false_2; [done|].
      intros [?|?]%elem_of_app; done.
Qed.

End Summary.

(** ** The whole pass *)

Section Pass.
Context {T : Type} `{BabelLaws T}.
Implicit Types (t : T) (options : IShakerOptions) (filename : string).
Implicit Types (rearranged : Exports) (collected : Collected).

Lemma sweep_publishes options filename collected rearranged side aliveExports t :
  ∃ t', sweep options filename collected rearranged side aliveExports t
        = Returned Shaken t' (publish t' collected rearranged).
Proof.
  destruct (sweep_returns options filename collected rearranged side aliveExports t)
    as (e & _ & ->).
  unfold finish. by eexists.
Qed.

(** What is published at each exit. *)
Lemma enter_returned options filename t exit t' state :
  enter options filename t = Returned exit t' state →
  (exit = FastLane
   ∧ state = mkState [] [] [] (JSObject.keys (normalize t).1))
  ∨ ((exit = InteropAbort ∨ exit = SkipShaking)
     ∧ state = allAlive (collectExportsAndImports t) (normalize t).1)
  ∨ (exit = Shaken
     ∧ state = publish t' (collectExportsAndImports t) (normalize t).1).
Proof.
  rewrite enter_cases. simpl.
  destruct (JSSet.size _ =? 0); [intros [= <- _ <-]; auto|].
  case_bool_decide; [intros [= <- _ <-]; auto|].
  destruct (negb _); [|intros [= <- <- <-]; auto].
  rewrite shake_cases.
  repeat case_match;
    try (intros [= <- _ <-]; by auto);
    try done;
    match goal with
    | |- sweep ?o ?f ?c ?r ?s ?a ?x = _ → _ =>
        destruct (sweep_publishes o f c r s a x) as (? & ->);
        intros [= <- <- <-]; auto
    end.
Qed.

(** X8.  Whatever the exit, what the pass publishes is drawn from what
    was collected: the imports, the re-exports and the exports are taken
    from the collected imports, the collected re-exports and the
    normalized export map in their order, and every name of the export map
    is reported once, as a surviving export or as a dead one. *)
Theorem published_state_is_drawn_from_the_collected
    options filename t exit t' state :
  NoDup (JSObject.keys (exports (collectExportsAndImports t))) →
  enter options filename t = Returned exit t' state →
  st_imports state `sublist_of` imports (collectExportsAndImports t)
  ∧ st_reexports state `sublist_of` reexports (collectExportsAndImports t)
  ∧ st_exports state `sublist_of` (normalize t).1
  ∧ JSObject.keys (st_exports state) ++ st_deadExports state
    ≡ₚ JSObject.keys (normalize t).1.
Proof.
  intros Hnd He.
  assert (NoDup (JSObject.keys (normalize t).1)) as Hnd'.
  { rewrite normalize_exports. by apply rearrangeExports_keys_NoDup. }
  destruct (enter_returned _ _ _ _ _ _ He) as [[_ ->]|[[_ ->]|[_ ->]]]; simpl.
  - split_and!; [apply sublist_nil_l..|done].
  - split_and!; [done..|by rewrite app_nil_r].
  - rewrite publish_filters by done. simpl.
    split_and!; [apply sublist_filter..|].
    unfold JSObject.keys.
    rewrite <- fmap_app.
    apply fmap_Permutation.
    assert (filter (λ entry, isRemoved t' entry.2 = true) (normalize t).1
            = filter (λ entry, ¬ isRemoved t' entry.2 = false) (normalize t).1)
      as ->.
    { apply list_filter_iff. intros entry. by destruct (isRemoved t' entry.2). }
    apply filter_app_complement.
Qed.

(** X9.  A request with the wildcard, when the interop abort does not
    apply, deletes nothing, whatever the policy, the features and the dead
    imports: the pass ends on the normalized module, which keeps every
    statement of the module, and only the reporter runs. *)
Theorem wildcard_request_deletes_nothing options filename t :
  "*" ∈ onlyExports options →
  ¬ hazard options t →
  enter options filename t
  = Returned Shaken (normalize t).2
      (publish (normalize t).2 (collectExportsAndImports t) (normalize t).1)
  ∧ keeps t (normalize t).2.
Proof.
  intros Hstar Hhazard. split; [|apply normalize_keeps].
  assert ("*" ∈ requested options (normalize t).1) as Hreq.
  { apply elem_of_requested. split; [done|]. by intros [? _]. }
  assert ("*" ∈ effective options (normalize t).1) as Heff.
  { by apply elem_of_effective. }
  rewrite enter_cases. simpl. rewrite (size_pos _ _ Hreq).
  rewrite bool_decide_eq_false_2 by done.
  apply has_true in Heff. by rewrite Heff.
Qed.

(** X10.  Under the policies [ignore] and [reexport-all] the pass neither
    fails nor skips the shaking: it takes the fast lane exactly when the
    request is empty, aborts exactly for the interop hazard, and runs to
    its end otherwise. *)
Theorem lenient_policies_never_give_up options filename t :
  ifUnknownExport options = Some ignore
  ∨ ifUnknownExport options = Some reexport_all →
  ∃ exit t' state,
    enter options filename t = Returned exit t' state
    ∧ (exit = FastLane ↔ requested options (normalize t).1 = [])
    ∧ (exit = InteropAbort
       ↔ requested options (normalize t).1 ≠ [] ∧ hazard options t)
    ∧ (exit = Shaken
       ↔ requested options (normalize t).1 ≠ [] ∧ ¬ hazard options t).
Proof.
  intros Hpolicy. rewrite enter_cases. simpl.
  destruct (requested options (normalize t).1) as [|name l] eqn:Ereq.
  { simpl. eexists _, _, _. split; [done|]. naive_solver. }
  simpl. case_bool_decide as Ehazard.
  { eexists _, _, _. split; [done|]. naive_solver. }
  assert (∃ t' state,
    (if negb (JSSet.has (effective options (normalize t).1) "*")
     then shake options filename (collectExportsAndImports t) (normalize t).1
            (effective options (normalize t).1)
            (JSSet.has (name :: l) "side-effect") (normalize t).2
     else Returned Shaken (normalize t).2
            (publish (normalize t).2 (collectExportsAndImports t) (normalize t).1))
    = Returned Shaken t' state) as (t' & state & ->).
  { destruct (negb _); [|by eexists _, _].
    rewrite shake_cases.
    destruct (_ =? _); [apply sweep_exit|].
    destruct Hpolicy as [-> | ->]; simpl; apply sweep_exit. }
  exists Shaken, t', state. split; [done|]. naive_solver.
Qed.

Lemma fold_left_ext_in {A B} (f g : A → B → A) (l : list B) (a : A) :
  (∀ acc x, x ∈ l → f acc x = g acc x) → fold_left f l a = fold_left g l a.
Proof.
  revert a. induction l as [|x l IH]; intros a Hfg; simpl; [done|].
  rewrite Hfg by left. apply IH. intros acc y Hy. apply Hfg. by right.
Qed.

Lemma has_ext (request request' : list string) name :
  (name ∈ request ↔ name ∈ request') →
  JSSet.has request name = JSSet.has request' name.
Proof. intros Hiff. unfold JSSet.has. by apply bool_decide_ext. Qed.

(** The alive set reads the request at the names of exports and of
    re-exports only. *)
Lemma alive_ext collected rearranged request request' t :
  (∀ name, name ∈ JSObject.keys rearranged
           ∨ name ∈ map IReexport.exported (reexports collected) →
           (name ∈ request ↔ name ∈ request')) →
  alive collected rearranged request t = alive collected rearranged request' t.
Proof.
  intros Hsame. unfold alive.
  rewrite (fold_left_ext_in
    (aliveExport request (map IImport.imported (imports collected)) t)
    (aliveExport request' (map IImport.imported (imports collected)) t)).
  - apply fold_left_ext_in. intros acc exp Hexp. unfold aliveReexport.
    rewrite (has_ext request request'); [done|].
    apply Hsame. right. apply list_elem_of_fmap. by exists exp.
  - intros acc [exported local] Hentry. simpl.
    rewrite (has_ext request request'); [done|].
    apply Hsame. left. apply list_elem_of_fmap. by exists (exported, local).
Qed.

Lemma shake_ext options request' filename collected rearranged
    (asked asked' : list string) side t :
  (∀ name, name ∈ JSObject.keys rearranged
           ∨ name ∈ map IReexport.exported (reexports collected) →
           (name ∈ asked ↔ name ∈ asked')) →
  length asked = length asked' ∨ ifUnknownExport options = Some ignore →
  shake (asking options request') filename collected rearranged asked' side t
  = match shake options filename collected rearranged asked side t with
    | Thrown _ =>
        Thrown ("Unknown export(s) requested: " +:+ String.concat "," request')
    | outcome => outcome
    end.
Proof.
  intros Hsame Hsize. rewrite !shake_cases.
  rewrite <- (alive_ext collected rearranged asked asked' t Hsame).
  set (aliveExports := alive collected rearranged asked t).
  assert (∀ a,
    sweep (asking options request') filename collected rearranged side a t
    = sweep options filename collected rearranged side a t) as Hsweep by done.
  assert (∀ a,
    match sweep options filename collected rearranged side a t with
    | Thrown _ =>
        Thrown ("Unknown export(s) requested: " +:+ String.concat "," request')
    | outcome => outcome
    end = sweep options filename collected rearranged side a t) as Hmatch.
  { intros a. by destruct (sweep_exit options filename collected rearranged side a t)
      as (? & ? & ->). }
  rewrite !Hsweep. simpl (ifUnknownExport (asking options request')).
  simpl (onlyExports (asking options request')).
  destruct Hsize as [Hlen|Hignore].
  - unfold JSSet.size. rewrite <- Hlen.
    destruct (length aliveExports =? length asked); [by rewrite Hmatch|].
    destruct (default skip_shaking (ifUnknownExport options));
      by rewrite ?Hmatch.
  - rewrite Hignore. simpl.
    destruct (JSSet.size aliveExports =? JSSet.size asked'),
      (JSSet.size aliveExports =? JSSet.size asked); by rewrite Hmatch.
Qed.

Lemma same_size (l k : list string) :
  NoDup l → NoDup k → (∀ x, x ∈ l ↔ x ∈ k) → length l = length k.
Proof. intros Hl Hk Hlk. by apply Permutation_length, NoDup_Permutation. Qed.

(** X11.  The request is read as a set: another request with the same
    names, in any order and with any repetition, has the same outcome,
    but for the message of the error, which lists the request as it was
    given. *)
Theorem request_is_read_as_a_set options request' filename t :
  (∀ name, name ∈ onlyExports options ↔ name ∈ request') →
  enter (asking options request') filename t
  = match enter options filename t with
    | Thrown _ =>
        Thrown ("Unknown export(s) requested: " +:+ String.concat "," request')
    | outcome => outcome
    end.
Proof.
  intros Hsame.
  assert (∀ name, name ∈ requested options (normalize t).1
                  ↔ name ∈ requested (asking options request') (normalize t).1)
    as Hreq.
  { intros name. rewrite !elem_of_requested. simpl. by rewrite Hsame. }
  assert (∀ name, name ∈ effective options (normalize t).1
                  ↔ name ∈ effective (asking options request') (normalize t).1)
    as Heff.
  { intros name. rewrite !elem_of_effective. by rewrite Hreq. }
  assert (hazard options t ↔ hazard (asking options request') t) as Hhazard.
  { unfold hazard. by rewrite Heff. }
  rewrite !enter_cases. simpl.
  rewrite <- (bool_decide_ext _ _ Hhazard).
  rewrite <- (has_ext _ _ "*" (Heff "*")).
  rewrite <- (has_ext _ _ "side-effect" (Hreq "side-effect")).
  unfold JSSet.size.
  rewrite <- (same_size _ _ (NoDup_requested options (normalize t).1)
                (NoDup_requested (asking options request') (normalize t).1) Hreq).
  destruct (length _ =? 0); [done|].
  case_bool_decide; [done|].
  destruct (negb _); [|done].
  apply shake_ext; [auto|]. left.
  by apply same_size; [apply NoDup_effective..|].
Qed.

(** X12.  Under the policy [ignore] the requested names that stand for
    nothing are of no account: two requests that agree on the names of the
    exports and of the re-exports, on the wildcard and on the [side-effect]
    marker, and that are both not empty once an unexported
    [__linariaPreval] is dropped, have the same outcome. *)
Theorem ignored_names_are_of_no_account options request' filename t :
  ifUnknownExport options = Some ignore →
  (∀ name, name ∈ JSObject.keys (normalize t).1
           ∨ name ∈ map IReexport.exported (reexports (collectExportsAndImports t))
           ∨ name = "*" ∨ name = "side-effect" →
           (name ∈ onlyExports options ↔ name ∈ request')) →
  requested options (normalize t).1 ≠ [] →
  requested (asking options request') (normalize t).1 ≠ [] →
  enter (asking options request') filename t = enter options filename t.
Proof.
  intros Hpolicy Hsame Hne Hne'.
  assert (∀ name, name ∈ JSObject.keys (normalize t).1
           ∨ name ∈ map IReexport.exported (reexports (collectExportsAndImports t))
           ∨ name = "*" ∨ name = "side-effect" →
           (name ∈ requested options (normalize t).1
            ↔ name ∈ requested (asking options request') (normalize t).1))
    as Hreq.
  { intros name Hname. rewrite !elem_of_requested. simpl. by rewrite Hsame. }
  assert (∀ name, name ∈ JSObject.keys (normalize t).1
           ∨ name ∈ map IReexport.exported (reexports (collectExportsAndImports t))
           ∨ name = "*" ∨ name = "side-effect" →
           (name ∈ effective options (normalize t).1
            ↔ name ∈ effective (asking options request') (normalize t).1))
    as Heff.
  { intros name Hname. rewrite !elem_of_effective. by rewrite Hreq. }
  assert (hazard options t ↔ hazard (asking options request') t) as Hhazard.
  { unfold hazard. rewrite get_is_Some.
    split; intros (Hd & Hk & He); (split_and!; [|done..]);
      apply (Heff "default"); auto. }
  rewrite !enter_cases. simpl.
  rewrite <- (bool_decide_ext _ _ Hhazard).
  rewrite <- (has_ext _ _ "*" (Heff "*" ltac:(auto))).
  rewrite <- (has_ext _ _ "side-effect" (Hreq "side-effect" ltac:(auto))).
  destruct (requested options (normalize t).1) as [|? ?] eqn:E1; [done|].
  destruct (requested (asking options request') (normalize t).1) as [|? ?] eqn:E2;
    [done|].
  simpl. case_bool_decide; [done|].
  destruct (negb _); [|done].
  rewrite (shake_ext options request' filename (collectExportsAndImports t)
             (normalize t).1 (effective options (normalize t).1)
             (effective (asking options request') (normalize t).1)); [|naive_solver|auto].
  rewrite shake_cases, Hpolicy. simpl.
  destruct (_ =? _);
    match goal with
    | |- context [sweep ?o ?f ?c ?r ?s ?a ?x] =>
        by destruct (sweep_exit o f c r s a x) as (? & ? & ->)
    end.
Qed.

Lemma length_flat_map_one {A B} (f : A → list B) (l : list A) :
  (∀ a, a ∈ l → length (f a) = 1) → length (flat_map f l) = length l.
Proof.
  induction l as [|a l IH]; intros Hf; simpl; [done|].
  rewrite length_app, (Hf a) by left. rewrite IH; [done|].
  intros b Hb. apply Hf. by right.
Qed.

(** X13.  No false alarm: when every requested name stands for exactly
    one export or re-export, different names for different nodes, and no
    export is alive for the name of an import alone, all exports count as
    found and the pass runs to its end under every policy, [error]
    included. *)
Theorem known_request_is_shaken options filename t :
  requested options (normalize t).1 ≠ [] →
  "*" ∉ effective options (normalize t).1 →
  ¬ hazard options t →
  Forall (λ entry,
            entry.1 ∈ effective options (normalize t).1
            ∨ nodeName (normalize t).2 entry.2
              ∉ map IImport.imported (imports (collectExportsAndImports t)))
         (normalize t).1 →
  Forall (λ name,
            length (matches (collectExportsAndImports t) (normalize t).1 name) = 1)
         (effective options (normalize t).1) →
  NoDup (flat_map (matches (collectExportsAndImports t) (normalize t).1)
           (effective options (normalize t).1)) →
  ∃ t' state, enter options filename t = Returned Shaken t' state.
Proof.
  rewrite !Forall_forall. intros Hne Hstar Hhazard Hvia Hone Hapart.
  rewrite enter_cases. simpl.
  assert ((JSSet.size (requested options (normalize t).1) =? 0) = false) as ->.
  { by destruct (requested options (normalize t).1). }
  rewrite bool_decide_eq_false_2 by done.
  apply has_false in Hstar. rewrite Hstar. simpl.
  rewrite shake_cases.
  assert (alive (collectExportsAndImports t) (normalize t).1
            (effective options (normalize t).1) (normalize t).2
          ≡ₚ flat_map (matches (collectExportsAndImports t) (normalize t).1)
               (effective options (normalize t).1)) as Hperm.
  { apply NoDup_Permutation; [apply NoDup_alive|done|].
    intros x. split.
    - intros Hx. destruct (alive_matches _ _ _ _ _ Hvia Hx) as (name & Hname & Hm).
      apply list_elem_of_In, in_flat_map.
      exists name. split; by apply list_elem_of_In.
    - intros (name & Hname%list_elem_of_In & Hm%list_elem_of_In)
               %list_elem_of_In%in_flat_map.
      apply elem_of_alive. unfold matches in Hm.
      apply elem_of_app in Hm as [Hm|Hm]; apply list_elem_of_fmap in Hm.
      + destruct Hm as ([exported local] & -> & [E Hentry]%list_elem_of_filter).
        simpl in E. subst exported. left. exists name. auto.
      + destruct Hm as (exp & -> & [E Hexp]%list_elem_of_filter).
        right. exists exp. by rewrite E. }
  unfold JSSet.size. rewrite (Permutation_length Hperm).
  rewrite length_flat_map_one by done. rewrite Nat.eqb_refl.
  apply sweep_exit.
Qed.

Lemma enter_fast_inv options filename t t' state :
  enter options filename t = Returned FastLane t' state →
  requested options (normalize t).1 = [].
Proof.
  rewrite enter_cases. simpl.
  destruct (requested options (normalize t).1) as [|name l]; [done|]. simpl.
  case_bool_decide; [done|].
  destruct (negb _); [|done].
  rewrite shake_cases.
  repeat case_match; try done;
    match goal with
    | |- sweep ?o ?f ?c ?r ?s ?a ?x = _ → _ =>
        destruct (sweep_exit o f c r s a x) as (? & ? & ->); done
    end.
Qed.

(** X14.  When the module exports [__linariaPreval] the name stays in the
    request: the request the pass looks at has exactly the names it was
    given, and a request that is not empty does not take the fast lane. *)
Theorem exported_preval_is_kept options filename t :
  "__linariaPreval" ∈ JSObject.keys (exports (collectExportsAndImports t)) →
  (∀ name, name ∈ requested options (normalize t).1 ↔ name ∈ onlyExports options)
  ∧ (onlyExports options ≠ [] →
     ∀ t' state, enter options filename t ≠ Returned FastLane t' state).
Proof.
  intros Hexported.
  assert (∀ name, name ∈ requested options (normalize t).1
                  ↔ name ∈ onlyExports options) as Hreq.
  { intros name. rewrite elem_of_requested. split; [by intros [? _]|].
    intros Hin. split; [done|]. intros [_ Hnone].
    apply get_None in Hnone. by apply Hnone, normalize_keys. }
  split; [done|].
  intros Hne t' state He. apply enter_fast_inv in He.
  destruct (onlyExports options) as [|name l] eqn:E; [done|].
  assert (name ∈ requested options (normalize t).1) as Hin by (apply Hreq; left).
  rewrite He in Hin. by apply elem_of_nil in Hin.
Qed.

End Pass.

(** ** The same on the sample modules *)

Section SampleRuns.
Import Model Samples.

(** X2 on [withImports]: the re-export of [*] joins the alive set. *)
Lemma reexport_all_witness :
  2 ∈ keepAllReexports [("a", 6)] (collectExportsAndImports withImports) [6]
  ∧ NoDup (keepAllReexports [("a", 6)] (collectExportsAndImports withImports) [6]).
Proof.
  destruct (reexport_all_adds_the_wildcards [("a", 6)]
              (collectExportsAndImports withImports) [6]) as [Hin Hnd].
  split.
  - apply Hin. right. right. exists (IReexport.mk "*" "*" "./more" 2).
    split_and!; [|reflexivity|reflexivity].
    change (IReexport.mk "*" "*" "./more" 2 ∈ [IReexport.mk "*" "*" "./more" 2]).
    left.
  - apply Hnd. by_evaluation.
Defined.

(** X4 on [withImports]: [a] is requested, its initializer is no
    candidate. *)
Lemma requested_export_witness :
  6 ∉ worklist (options ["a"] None) (collectExportsAndImports withImports)
        [("a", 6)] false
        (alive (collectExportsAndImports withImports) [("a", 6)] ["a"] withImports)
        withImports.
Proof.
  apply (requested_export_is_no_candidate (options ["a"] None)
           (collectExportsAndImports withImports) [("a", 6)] false ["a"]
           withImports "a" 6).
  - by_evaluation.
  - by_evaluation.
  - reflexivity.
  - by_evaluation.
Defined.

(** X5 on [withImports]: the re-export is the one candidate, and the one
    path that is deleted. *)
Lemma elimination_within_witness :
  (∀ p, p ∈ deleted importsLoop → p ∈ [2])
  ∧ (∀ p, p ∈ dereferenced importsLoop → p ∈ [2]).
Proof.
  destruct (elimination_stays_within_the_worklist withImports [2] 1 importsLoop)
    as (Hdeleted & Hsevered & _).
  - vm_compute. reflexivity.
  - split; [exact Hdeleted|exact Hsevered].
Defined.

(** X6 on [shakenImports]: the export survives, the re-export is gone. *)
Lemma report_witness :
  st_exports (publish shakenImports (collectExportsAndImports withImports) [("a", 6)])
  = [("a", 6)]
  ∧ st_deadExports
      (publish shakenImports (collectExportsAndImports withImports) [("a", 6)])
    = []
  ∧ st_reexports
      (publish shakenImports (collectExportsAndImports withImports) [("a", 6)])
    = [].
Proof.
  destruct (report_partitions_the_exports shakenImports
              (collectExportsAndImports withImports) [("a", 6)])
    as (Halive & Hdead & _ & Hre).
  - by_evaluation.
  - split_and!; [exact Halive|exact Hdead|exact Hre].
Defined.

(** X8 on [withImports] with [a] requested. *)
Lemma published_state_witness :
  JSObject.keys
    (st_exports (publish shakenImports (collectExportsAndImports withImports)
                   [("a", 6)]))
  ++ st_deadExports (publish shakenImports (collectExportsAndImports withImports)
                       [("a", 6)])
  ≡ₚ ["a"].
Proof.
  destruct (published_state_is_drawn_from_the_collected (options ["a"] None)
              "module.js" withImports Shaken shakenImports
              (publish shakenImports (collectExportsAndImports withImports)
                 [("a", 6)])) as (_ & _ & _ & Hnames).
  - by_evaluation.
  - vm_compute. reflexivity.
  - exact Hnames.
Defined.

(** X9 on [twoExports]: the wildcard with an unknown name, under the
    policy [error]. *)
Lemma wildcard_witness :
  enter (options ["*"; "zzz"] (Some error)) "module.js" twoExports
  = Returned Shaken (normalize twoExports).2
      (mkState [] [("a", 3); ("b", 7)] [] []).
Proof.
  destruct (wildcard_request_deletes_nothing (options ["*"; "zzz"] (Some error))
              "module.js" twoExports) as [He _].
  - by_evaluation.
  - by_evaluation.
  - exact He.
Defined.

(** X10 on [twoExports]: an unknown name under the policy [ignore]. *)
Lemma lenient_policy_witness :
  ∃ exit t' state,
    enter (options ["a"; "zzz"] (Some ignore)) "module.js" twoExports
    = Returned exit t' state
    ∧ (exit = Shaken
       ↔ requested (options ["a"; "zzz"] (Some ignore)) (normalize twoExports).1 ≠ []
         ∧ ¬ hazard (options ["a"; "zzz"] (Some ignore)) twoExports).
Proof.
  destruct (lenient_policies_never_give_up (options ["a"; "zzz"] (Some ignore))
              "module.js" twoExports) as (exit & t' & state & He & _ & _ & Hexit).
  - left. reflexivity.
  - exists exit, t', state. split; [exact He|exact Hexit].
Defined.

(** X11 on [twoExports]: [b, a, a] is the request [a, b]. *)
Lemma request_set_witness :
  enter (options ["b"; "a"; "a"] None) "module.js" twoExports
  = enter (options ["a"; "b"] None) "module.js" twoExports.
Proof.
  refine (request_is_read_as_a_set (options ["a"; "b"] None) ["b"; "a"; "a"]
            "module.js" twoExports _).
  intros name. simpl. rewrite !elem_of_cons, !elem_of_nil. tauto.
Defined.

(** X12 on [twoExports]: under [ignore], [a, zzz] is the request [a]. *)
Lemma ignored_names_witness :
  enter (options ["a"] (Some ignore)) "module.js" twoExports
  = enter (options ["a"; "zzz"] (Some ignore)) "module.js" twoExports.
Proof.
  refine (ignored_names_are_of_no_account (options ["a"; "zzz"] (Some ignore))
            ["a"] "module.js" twoExports _ _ _ _).
  - reflexivity.
  - intros name Hname.
    assert (name ≠ "zzz") as Hne.
    { intros ->. destruct Hname as [Hk|[Hr|[?|?]]]; [| |done|done].
      - assert ("zzz" ∉ JSObject.keys (normalize twoExports).1) as Hno
          by by_evaluation.
        done.
      - assert ("zzz" ∉ map IReexport.exported
                          (reexports (collectExportsAndImports twoExports))) as Hno
          by by_evaluation.
        done. }
    simpl. rewrite !elem_of_cons, !elem_of_nil. tauto.
  - by_evaluation.
  - by_evaluation.
Defined.

(** X13 on [twoExports]: [a] is known, the policy [error] does not fire. *)
Lemma known_request_witness :
  ∃ t' state,
    enter (options ["a"] (Some error)) "module.js" twoExports
    = Returned Shaken t' state.
Proof.
  apply (known_request_is_shaken (options ["a"] (Some error)) "module.js" twoExports).
  - by_evaluation.
  - by_evaluation.
  - by_evaluation.
  - by_evaluation.
  - by_evaluation.
  - by_evaluation.
Defined.

(** X14 on [prevalOnly]: the request of the exported [__linariaPreval]
    does not take the fast lane. *)
Lemma exported_preval_witness :
  enter (options ["__linariaPreval"] None) "module.js" prevalOnly
  ≠ Returned FastLane (fold_left remove (body prevalOnly) prevalOnly)
      (mkState [] [] [] ["__linariaPreval"]).
Proof.
  destruct (exported_preval_is_kept (options ["__linariaPreval"] None)
              "module.js" prevalOnly) as [_ Hslow].
  - by_evaluation.
  - apply Hslow. done.
Defined.


End SampleRuns.
